(** * tosch-hl7: a shallow embedding of the HL7 codec and its path API

    The development follows the TypeScript sources:
    - [core/Segment.ts]   (HL7Subcomponent, HL7Component, HL7Field, Segment)
    - [core/HL7Message.ts] (constructor, parsePath, get, set, toString)
    - [core/CustomValidator.ts] (validate)

    JavaScript strings are modelled as [string] (sequences of 8-bit code
    units, the range HL7 v2 wire text lives in), arrays of strings as
    [list string], and objects that the code shares and mutates (segments,
    and the field / component views the proxies hand out) as cells of an
    explicit heap, so that aliasing is visible.  Indices are natural
    numbers.

    HL7Message.ts comes in two listings that differ in [set]; both are
    embedded ([set] is the later one, [set_variant1] the earlier one).
    Segment.ts is embedded in its later listing, whose write handlers pad
    the array before they assign. *)

From Stdlib Require Import String Ascii List Arith Bool Lia.
From Stdlib Require Import DecimalString.
Import ListNotations.
Open Scope string_scope.

Set Implicit Arguments.

(* ------------------------------------------------------------------ *)
(** ** JavaScript runtime primitives used by the sources *)

Module JS.

Definition LF : ascii := "010"%char.
Definition CR : ascii := "013"%char.
Definition CRLF : string := String CR (String LF "").

(** [prepend c ls] puts [c] in front of the first string of [ls]. *)
Definition prepend (c : ascii) (ls : list string) : list string :=
  match ls with
  | [] => [String c ""]
  | l :: rest => String c l :: rest
  end.

(** [s.split(d)] for a one-character separator [d]. *)
Fixpoint split (d : ascii) (s : string) : list string :=
  match s with
  | "" => [""]
  | String c rest =>
      if Ascii.eqb c d then "" :: split d rest
      else prepend c (split d rest)
  end.

(** [s.split(/\r?\n/)]: the pattern is tried at every position from the
    left; at a CR it matches only when an LF follows. *)
Fixpoint split_lines (s : string) : list string :=
  match s with
  | "" => [""]
  | String c rest =>
      if Ascii.eqb c LF then "" :: split_lines rest
      else if Ascii.eqb c CR then
        match rest with
        | String c' rest' =>
            if Ascii.eqb c' LF then "" :: split_lines rest'
            else prepend c (split_lines rest)
        | "" => prepend c (split_lines rest)
        end
      else prepend c (split_lines rest)
  end.

(** [arr.join(sep)] on an array of strings. *)
Definition join (sep : string) (arr : list string) : string :=
  String.concat sep arr.

(** White space removed by [String.prototype.trim], restricted to code
    units below 256: TAB, LF, VT, FF, CR, SP and NBSP. *)
Definition is_space (c : ascii) : bool :=
  let n := nat_of_ascii c in
  (Nat.leb 9 n && Nat.leb n 13) || Nat.eqb n 32 || Nat.eqb n 160.

Fixpoint drop_spaces (l : list ascii) : list ascii :=
  match l with
  | [] => []
  | c :: rest => if is_space c then drop_spaces rest else l
  end.

Definition trim (s : string) : string :=
  string_of_list_ascii
    (rev (drop_spaces (rev (drop_spaces (list_ascii_of_string s))))).

(** The filter predicate of the constructor, [line.trim() !== '']. *)
Definition not_blank (line : string) : bool := negb (trim line =? "").

Definition is_digit (c : ascii) : bool :=
  let n := nat_of_ascii c in Nat.leb 48 n && Nat.leb n 57.

Definition is_upper (c : ascii) : bool :=
  let n := nat_of_ascii c in Nat.leb 65 n && Nat.leb n 90.

(** [parseInt(s, 10)] on a string of decimal digits, as produced by a
    [\d+] capture.  Indices are exact natural numbers here; the double
    arithmetic of the runtime is exact on every index an array can have. *)
Fixpoint parse_digits (acc : nat) (s : string) : nat :=
  match s with
  | "" => acc
  | String c rest => parse_digits (10 * acc + (nat_of_ascii c - 48)) rest
  end.

Definition parseInt (s : string) : nat := parse_digits 0 s.

(** [arr[index - 1]] with a 1-based [index]: [None] is [undefined]
    (also for [index = 0], which reads the property "-1"). *)
Definition at1 (arr : list string) (index : nat) : option string :=
  match index with
  | 0 => None
  | S k => nth_error arr k
  end.

(** [x || ''] on a value that is a string or [undefined]. *)
Definition or_empty (x : option string) : string :=
  match x with Some s => s | None => "" end.

(** [while (arr.length < n) arr.push('')]. *)
Definition pad_to (n : nat) (arr : list string) : list string :=
  arr ++ repeat "" (n - List.length arr).

(** [arr[i] = v] for [i] inside the array; every caller pads first. *)
Fixpoint array_set (arr : list string) (i : nat) (v : string) : list string :=
  match arr, i with
  | [], _ => []
  | _ :: t, 0 => v :: t
  | x :: t, S k => x :: array_set t k v
  end.

(** The own and inherited property names of a fresh object literal. *)
Definition object_prototype_keys : list string :=
  [ "constructor"; "__proto__"; "hasOwnProperty"; "isPrototypeOf";
    "propertyIsEnumerable"; "toLocaleString"; "toString"; "valueOf";
    "__defineGetter__"; "__defineSetter__"; "__lookupGetter__";
    "__lookupSetter__" ].

Definition mem (x : string) (l : list string) : bool :=
  existsb (String.eqb x) l.

End JS.

(* ------------------------------------------------------------------ *)
(** ** State and exceptions

    A computation reads and writes a store of type [S] and either returns
    a value or throws; a throw keeps the store as it was at that point
    (nothing is rolled back). *)

Inductive error : Type := TypeError.

Inductive outcome (A : Type) : Type :=
| Ok (a : A)
| Throw (e : error).

Arguments Ok {A} a.
Arguments Throw {A} e.

Definition M (S A : Type) : Type := S -> outcome A * S.

Definition ret {S A} (a : A) : M S A := fun s => (Ok a, s).

Definition bind {S A B} (c : M S A) (k : A -> M S B) : M S B :=
  fun s =>
    match c s with
    | (Ok a, s') => k a s'
    | (Throw e, s') => (Throw e, s')
    end.

Definition throw {S A} (e : error) : M S A := fun s => (Throw e, s).

Notation "x <- c ;; k" := (bind c (fun x => k))
  (at level 61, c at next level, right associativity).
Notation "c ;;; k" := (bind c (fun _ => k))
  (at level 61, right associativity).

(** [when_ b c] is [if (b) c]. *)
Definition when_ {S} (b : bool) (c : M S unit) : M S unit :=
  if b then c else ret tt.

(* ------------------------------------------------------------------ *)
(** ** Regular expressions with capture groups

    The fragment the sources use: literal characters, a character class
    under a greedy bounded or unbounded repetition, concatenation, the
    greedy optional [r?] and capturing groups.  [matches] is a
    backtracking matcher: it lists every way a prefix of the input can
    match, in the priority order of the runtime (greedy first), each with
    the values of the capture groups. *)

Module Regex.

Inductive re : Type :=
| Chr (c : ascii)
| Cls (p : ascii -> bool) (lo : nat) (hi : option nat)
| Cat (r1 r2 : re)
| Opt (r : re)
| Grp (r : re).

(** A capture is [None] when its group took no part in the match
    ([undefined] in the match array). *)
Definition captures : Type := list (option string).

Record hit : Type := mkHit {
  matched : string;
  groups : captures;
  rest : string
}.

Fixpoint ngroups (r : re) : nat :=
  match r with
  | Chr _ | Cls _ _ _ => 0
  | Cat r1 r2 => ngroups r1 + ngroups r2
  | Opt r => ngroups r
  | Grp r => S (ngroups r)
  end.

Fixpoint run_length (p : ascii -> bool) (s : string) : nat :=
  match s with
  | "" => 0
  | String c rest => if p c then S (run_length p rest) else 0
  end.

Fixpoint take (n : nat) (s : string) : string :=
  match n, s with
  | S k, String c rest => String c (take k rest)
  | _, _ => ""
  end.

Fixpoint drop (n : nat) (s : string) : string :=
  match n, s with
  | S k, String _ rest => drop k rest
  | _, _ => s
  end.

(** The repetition counts a greedy quantifier tries: [m], [m-1], ..., [lo]. *)
Fixpoint counts (m lo : nat) : list nat :=
  if Nat.ltb m lo then []
  else match m with
       | 0 => [0]
       | S m' => m :: counts m' lo
       end.

Definition bounded (hi : option nat) (k : nat) : nat :=
  match hi with
  | Some h => Nat.min h k
  | None => k
  end.

Fixpoint matches (r : re) (s : string) : list hit :=
  match r with
  | Chr c =>
      match s with
      | String c' s' =>
          if Ascii.eqb c' c then [mkHit (String c "") [] s'] else []
      | "" => []
      end
  | Cls p lo hi =>
      map (fun n => mkHit (take n s) [] (drop n s))
          (counts (bounded hi (run_length p s)) lo)
  | Cat r1 r2 =>
      flat_map
        (fun h1 =>
           map (fun h2 => mkHit (matched h1 ++ matched h2)
                                (groups h1 ++ groups h2)%list (rest h2))
               (matches r2 (rest h1)))
        (matches r1 s)
  | Opt r1 =>
      (matches r1 s ++ [mkHit "" (repeat None (ngroups r1)) s])%list
  | Grp r1 =>
      map (fun h => mkHit (matched h) (Some (matched h) :: groups h) (rest h))
          (matches r1 s)
  end.

(** A hit that consumed the whole input. *)
Definition full (h : hit) : bool := rest h =? "".

(** [s.match(/^r$/)]: the first way to match the whole input. *)
Definition exec (r : re) (s : string) : option captures :=
  match filter full (matches r s) with
  | h :: _ => Some (groups h)
  | [] => None
  end.

(** The declarative reading: [sem r w gs] says that [r] matches exactly
    the word [w] with capture values [gs]. *)
Inductive sem : re -> string -> captures -> Prop :=
| sem_Chr c : sem (Chr c) (String c "") []
| sem_Cls p lo hi w :
    run_length p w = String.length w ->
    lo <= String.length w ->
    (forall h, hi = Some h -> String.length w <= h) ->
    sem (Cls p lo hi) w []
| sem_Cat r1 r2 w1 w2 g1 g2 :
    sem r1 w1 g1 -> sem r2 w2 g2 ->
    sem (Cat r1 r2) (w1 ++ w2) (g1 ++ g2)%list
| sem_Opt_some r w g : sem r w g -> sem (Opt r) w g
| sem_Opt_none r : sem (Opt r) "" (repeat None (ngroups r))
| sem_Grp r w g : sem r w g -> sem (Grp r) w (Some w :: g).

(** The language of [r], forgetting the captures. *)
Definition lang (r : re) (w : string) : Prop := exists gs, sem r w gs.

(** [strip r] removes the capturing parentheses. *)
Fixpoint strip (r : re) : re :=
  match r with
  | Chr c => Chr c
  | Cls p lo hi => Cls p lo hi
  | Cat r1 r2 => Cat (strip r1) (strip r2)
  | Opt r => Opt (strip r)
  | Grp r => strip r
  end.

End Regex.

(* ------------------------------------------------------------------ *)
(** ** core/Segment.ts

    Every [new Segment(..)], [new HL7Field(..)], [new HL7Component(..)]
    and [new HL7Subcomponent(..)] allocates a cell.  The constructors
    return a Proxy around the object; the handlers of that Proxy are the
    [*_proxy_get] and [*_proxy_set] functions below, for property keys
    that are digit strings.  A view returned by a proxy is [Some a] for an
    object at address [a] and [None] for [null]. *)

Module Seg.
Import JS.

Definition addr : Type := nat.

Inductive obj : Type :=
| OSegment (fields : list string) (name : string)
| OField (value : string) (components : list string)
| OComponent (value : string) (subcomponents : list string)
| OSubcomponent (value : string).

Definition heap : Type := list obj.

Definition alloc (o : obj) : M heap addr :=
  fun h => (Ok (List.length h), (h ++ [o])%list).

Fixpoint update (h : heap) (a : addr) (o : obj) : heap :=
  match h, a with
  | [], _ => []
  | _ :: t, 0 => o :: t
  | x :: t, S k => x :: update t k o
  end.

Definition deref (h : heap) (a : addr) : option obj := nth_error h a.

(** *** HL7Subcomponent *)

Definition HL7Subcomponent_new (value : string) : M heap addr :=
  alloc (OSubcomponent value).

(** *** HL7Component *)

Definition HL7Component_new (value : string) : M heap addr :=
  alloc (OComponent value (split "&" value)).

Definition HL7Component_getSubcomponents (h : heap) (a : addr) : list string :=
  match deref h a with
  | Some (OComponent _ subcomponents) => subcomponents
  | _ => []
  end.

Definition HL7Component_proxy_get (a : addr) (index : nat)
  : M heap (option addr) :=
  fun h =>
    match at1 (HL7Component_getSubcomponents h a) index with
    | None => (Ok None, h)
    | Some subcomponent =>
        (v <- HL7Subcomponent_new subcomponent ;; ret (Some v)) h
    end.

Definition HL7Component_proxy_set (a : addr) (index : nat) (value : string)
  : M heap unit :=
  fun h =>
    match deref h a with
    | Some (OComponent _ subcomponents) =>
        let subcomponents' :=
          match index with
          | 0 => subcomponents
          | S k => array_set (pad_to index subcomponents) k value
          end in
        (Ok tt, update h a (OComponent (join "&" subcomponents') subcomponents'))
    | _ => (Throw TypeError, h)
    end.

(** *** HL7Field *)

Definition HL7Field_new (value : string) : M heap addr :=
  alloc (OField value (split "^" value)).

Definition HL7Field_getComponents (h : heap) (a : addr) : list string :=
  match deref h a with
  | Some (OField _ components) => components
  | _ => []
  end.

Definition HL7Field_toString (h : heap) (a : addr) : string :=
  match deref h a with
  | Some (OField value _) => value
  | _ => ""
  end.

Definition HL7Field_proxy_get (a : addr) (index : nat)
  : M heap (option addr) :=
  fun h =>
    match at1 (HL7Field_getComponents h a) index with
    | None => (Ok None, h)
    | Some component =>
        (v <- HL7Component_new component ;; ret (Some v)) h
    end.

Definition HL7Field_proxy_set (a : addr) (index : nat) (value : string)
  : M heap unit :=
  fun h =>
    match deref h a with
    | Some (OField _ components) =>
        let components' :=
          match index with
          | 0 => components
          | S k => array_set (pad_to index components) k value
          end in
        (Ok tt, update h a (OField (join "^" components') components'))
    | _ => (Throw TypeError, h)
    end.

(** *** Segment *)

Definition Segment_new (line : string) : M heap addr :=
  let fields := split "|" line in
  alloc (OSegment fields (hd "" fields)).

Definition Segment_getFields (h : heap) (a : addr) : list string :=
  match deref h a with
  | Some (OSegment fields _) => fields
  | _ => []
  end.

Definition Segment_getName (h : heap) (a : addr) : string :=
  match deref h a with
  | Some (OSegment _ name) => name
  | _ => ""
  end.

(** [this.fields[index] || '']. *)
Definition Segment_getField (h : heap) (a : addr) (index : nat) : string :=
  or_empty (nth_error (Segment_getFields h a) index).

Definition Segment_getComponent (h : heap) (a : addr)
  (fieldIndex componentIndex : nat) : string :=
  let field := Segment_getField h a fieldIndex in
  if field =? "" then ""
  else or_empty (at1 (split "^" field) componentIndex).

Definition Segment_getSubcomponent (h : heap) (a : addr)
  (fieldIndex componentIndex subcomponentIndex : nat) : string :=
  let component := Segment_getComponent h a fieldIndex componentIndex in
  if component =? "" then ""
  else or_empty (at1 (split "&" component) subcomponentIndex).

Definition Segment_toString (h : heap) (a : addr) : string :=
  join "|" (Segment_getFields h a).

(** [segment[index]]: a fresh HL7Field built from the field's text, or
    [null] when that text is empty or the field is missing. *)
Definition Segment_proxy_get (a : addr) (index : nat) : M heap (option addr) :=
  fun h =>
    let fieldValue := Segment_getField h a index in
    if fieldValue =? "" then (Ok None, h)
    else (v <- HL7Field_new fieldValue ;; ret (Some v)) h.

(** [segment[index] = value]. *)
Definition Segment_proxy_set (a : addr) (index : nat) (value : string)
  : M heap unit :=
  fun h =>
    match deref h a with
    | Some (OSegment fields name) =>
        (Ok tt,
         update h a (OSegment (array_set (pad_to (S index) fields) index value)
                              name))
    | _ => (Throw TypeError, h)
    end.

End Seg.

(* ------------------------------------------------------------------ *)
(** ** core/HL7Message.ts *)

Module Msg.
Import JS Regex Seg.

(** A value of [parsedSegments]: one Segment, or an array of Segments. *)
Inductive segData : Type :=
| Single (a : addr)
| Multiple (l : list addr).

(** The instance: its two private members, and the heap the Segment
    objects (shared by [segments] and [parsedSegments]) live in. *)
Record Message : Type := mkMessage {
  store : heap;
  segments : list addr;
  parsedSegments : list (string * segData)
}.

(** Property read and write on a plain object used as a dictionary;
    a new key goes last. *)
Fixpoint prop_get {V} (o : list (string * V)) (k : string) : option V :=
  match o with
  | [] => None
  | (k', v) :: o' => if k' =? k then Some v else prop_get o' k
  end.

Fixpoint prop_set {V} (o : list (string * V)) (k : string) (v : V)
  : list (string * V) :=
  match o with
  | [] => [(k, v)]
  | (k', v') :: o' =>
      if k' =? k then (k, v) :: o' else (k', v') :: prop_set o' k v
  end.

(** *** parsePath *)

Record PathParts : Type := mkPath {
  segmentName : string;
  fieldIndex : nat;
  componentIndex : option nat;
  subcomponentIndex : option nat
}.

(** [\d+] *)
Definition digits : re := Cls is_digit 1 None.

(** [[A-Z]{2,3}[0-9]?] *)
Definition name_re : re :=
  Cat (Cls is_upper 2 (Some 3)) (Opt (Cls is_digit 1 (Some 1))).

(** [\.(\d+)] *)
Definition dot_digits : re := Cat (Chr ".") (Grp digits).

(** [/^([A-Z]{2,3}[0-9]?)-(\d+)(?:\.(\d+))?(?:\.(\d+))?$/] *)
Definition pathRegex : re :=
  Cat (Grp name_re)
 (Cat (Chr "-")
 (Cat (Grp digits)
 (Cat (Opt dot_digits) (Opt dot_digits)))).

(** A match-array entry used as a condition: [undefined] and [''] are falsy. *)
Definition truthy (x : option string) : bool :=
  match x with
  | Some s => negb (s =? "")
  | None => false
  end.

(** [parsePath]: [null] when [path.match(pathRegex)] fails or one of the
    first two groups is falsy ([!match || !match[1] || !match[2]]). *)
Definition parsePath (path : string) : option PathParts :=
  match exec pathRegex path with
  | Some [m1; m2; m3; m4] =>
      if negb (truthy m1) || negb (truthy m2) then None
      else Some {| segmentName := or_empty m1;
                   fieldIndex := parseInt (or_empty m2);
                   componentIndex :=
                     if truthy m3 then Some (parseInt (or_empty m3)) else None;
                   subcomponentIndex :=
                     if truthy m4 then Some (parseInt (or_empty m4)) else None |}
  | _ => None
  end.

(** *** constructor *)

Fixpoint mapM {S A B} (f : A -> M S B) (l : list A) : M S (list B) :=
  match l with
  | [] => ret []
  | x :: l' => y <- f x ;; ys <- mapM f l' ;; ret (y :: ys)
  end.

(** The grouping loop of [parseSegmentsToObject].  [parsed] starts as an
    object literal, so for a name found on [Object.prototype] the read
    [parsed[name]] yields an inherited value that has no [push], and the
    call throws.  Keys are kept in first-seen order; the order of the keys
    of an object is not observed by the operations embedded here. *)
Fixpoint group_segments (h : heap) (segs : list addr)
  (parsed : list (string * list addr)) : outcome (list (string * list addr)) :=
  match segs with
  | [] => Ok parsed
  | segment :: segs' =>
      let name := Segment_getName h segment in
      if mem name object_prototype_keys then Throw TypeError
      else
        let group :=
          match prop_get parsed name with
          | Some g => g
          | None => []
          end in
        group_segments h segs' (prop_set parsed name (group ++ [segment])%list)
  end.

(** The second loop: a group of one becomes the Segment itself. *)
Definition unwrap_groups (parsed : list (string * list addr))
  : list (string * segData) :=
  flat_map
    (fun kv =>
       match snd kv with
       | [] => []
       | [segment] => [(fst kv, Single segment)]
       | segs => [(fst kv, Multiple segs)]
       end)
    parsed.

Definition parseSegmentsToObject (h : heap) (segs : list addr)
  : outcome (list (string * segData)) :=
  match group_segments h segs [] with
  | Ok parsed => Ok (unwrap_groups parsed)
  | Throw e => Throw e
  end.

(** The members of an instance.  [assignSegmentProperties] stores every
    first segment on the instance under its name; a name in this list
    replaces a member by a Segment. *)
Definition member_names : list string :=
  [ "segments"; "parsedSegments"; "set"; "get"; "getAllSegments";
    "getSegments"; "getParsedSegments"; "getSegment"; "hasSegment";
    "parsePath"; "assignSegmentProperties"; "parseSegmentsToObject" ].

(** What [new HL7Message(rawHL7)] does: it returns an instance, or throws,
    or returns an instance one of whose members has been overwritten by
    [assignSegmentProperties]; such an instance is not described further. *)
Inductive constructed : Type :=
| Built (m : Message)
| Raised (e : error)
| Overwritten (member : string).

Definition HL7Message_new (rawHL7 : string) : constructed :=
  let lines := filter not_blank (split_lines rawHL7) in
  match mapM Segment_new lines [] with
  | (Throw e, _) => Raised e
  | (Ok segs, h) =>
      match parseSegmentsToObject h segs with
      | Throw e => Raised e
      | Ok parsed =>
          match filter (fun k => mem k member_names) (map fst parsed) with
          | k :: _ => Overwritten k
          | [] => Built (mkMessage h segs parsed)
          end
      end
  end.

(** *** get, toString, getSegments, hasSegment *)

(** [segmentData] resolved to the segment the path API works on:
    the array's first element, or the single Segment. *)
Definition first_segment (m : Message) (name : string) : option addr :=
  match prop_get (parsedSegments m) name with
  | Some (Multiple l) => hd_error l
  | Some (Single a) => Some a
  | None => None
  end.

Definition get (m : Message) (path : string) : string :=
  match parsePath path with
  | None => ""
  | Some p =>
      match first_segment m (segmentName p) with
      | None => ""
      | Some segment =>
          match componentIndex p with
          | None => Segment_getField (store m) segment (fieldIndex p)
          | Some ci =>
              match subcomponentIndex p with
              | None => Segment_getComponent (store m) segment (fieldIndex p) ci
              | Some si =>
                  Segment_getSubcomponent (store m) segment (fieldIndex p) ci si
              end
          end
      end
  end.

Definition toString (m : Message) : string :=
  join CRLF (map (Segment_toString (store m)) (segments m)).

Definition getSegments (m : Message) : list addr := segments m.

(** [name in this.parsedSegments]: own keys and inherited ones. *)
Definition hasSegment (m : Message) (name : string) : bool :=
  mem name (map fst (parsedSegments m)) || mem name object_prototype_keys.

(** *** set *)

(** A Segment-level computation run on the instance's heap. *)
Definition on_store {A} (c : M heap A) : M Message A :=
  fun m =>
    let (r, h) := c (store m) in
    (r, mkMessage h (segments m) (parsedSegments m)).

(** [!index] on an optional number: [undefined] and [0] are falsy. *)
Definition absent (index : option nat) : bool :=
  match index with
  | None | Some 0 => true
  | Some (S _) => false
  end.

Definition is_null (v : option addr) : bool :=
  match v with None => true | Some _ => false end.

(** Indexing into a view: reading or writing a property of [null] throws. *)
Definition HL7Field_index_get (v : option addr) (index : nat)
  : M heap (option addr) :=
  match v with
  | Some f => HL7Field_proxy_get f index
  | None => throw TypeError
  end.

Definition HL7Field_index_set (v : option addr) (index : nat) (value : string)
  : M heap unit :=
  match v with
  | Some f => HL7Field_proxy_set f index value
  | None => throw TypeError
  end.

Definition HL7Component_index_set (v : option addr) (index : nat)
  (value : string) : M heap unit :=
  match v with
  | Some c => HL7Component_proxy_set c index value
  | None => throw TypeError
  end.

(** The three write branches of the current [set] (second listing of
    HL7Message.ts), on the resolved [segment]. *)
Definition write (segment : addr) (p : PathParts) (value : string)
  : M heap unit :=
  let fi := fieldIndex p in
  let ci := match componentIndex p with Some n => n | None => 0 end in
  let si := match subcomponentIndex p with Some n => n | None => 0 end in
  if absent (componentIndex p) then
    Segment_proxy_set segment fi value
  else if absent (subcomponentIndex p) then
    f1 <- Segment_proxy_get segment fi ;;
    when_ (is_null f1) (Segment_proxy_set segment fi "") ;;;
    f2 <- Segment_proxy_get segment fi ;;
    c2 <- HL7Field_index_get f2 ci ;;
    when_ (is_null c2)
      (f3 <- Segment_proxy_get segment fi ;; HL7Field_index_set f3 ci "") ;;;
    f4 <- Segment_proxy_get segment fi ;;
    HL7Field_index_set f4 ci value
  else
    f1 <- Segment_proxy_get segment fi ;;
    when_ (is_null f1) (Segment_proxy_set segment fi "") ;;;
    f2 <- Segment_proxy_get segment fi ;;
    c2 <- HL7Field_index_get f2 ci ;;
    when_ (is_null c2)
      (f3 <- Segment_proxy_get segment fi ;; HL7Field_index_set f3 ci "") ;;;
    f4 <- Segment_proxy_get segment fi ;;
    c4 <- HL7Field_index_get f4 ci ;;
    HL7Component_index_set c4 si value.

(** The write branches of the earlier [set] (first listing): the component
    branch has no step that creates the component. *)
Definition write_variant1 (segment : addr) (p : PathParts) (value : string)
  : M heap unit :=
  let fi := fieldIndex p in
  let ci := match componentIndex p with Some n => n | None => 0 end in
  let si := match subcomponentIndex p with Some n => n | None => 0 end in
  if absent (componentIndex p) then
    Segment_proxy_set segment fi value
  else if absent (subcomponentIndex p) then
    f1 <- Segment_proxy_get segment fi ;;
    when_ (is_null f1) (Segment_proxy_set segment fi "") ;;;
    f2 <- Segment_proxy_get segment fi ;;
    HL7Field_index_set f2 ci value
  else
    f1 <- Segment_proxy_get segment fi ;;
    when_ (is_null f1) (Segment_proxy_set segment fi "") ;;;
    f2 <- Segment_proxy_get segment fi ;;
    c2 <- HL7Field_index_get f2 ci ;;
    when_ (is_null c2)
      (f3 <- Segment_proxy_get segment fi ;; HL7Field_index_set f3 ci "") ;;;
    f4 <- Segment_proxy_get segment fi ;;
    c4 <- HL7Field_index_get f4 ci ;;
    HL7Component_index_set c4 si value.

(** The segment [set] writes into.  When the name is not in the index a
    Segment is built from [segmentName + '|'] and stored in the index;
    [push] tells whether it is also pushed onto [this.segments], which is
    the one difference between the two listings at this point.  The
    assignment [this[segmentName] = segment] that follows adds an own
    property which is never read back: the Proxy of the instance answers a
    name of that shape from [parsedSegments].  An empty array in the index
    makes [segment] undefined, and the first use of it throws. *)
Definition resolve (push : bool) (name : string) : M Message addr :=
  fun m =>
    match prop_get (parsedSegments m) name with
    | Some (Multiple (a :: _)) => (Ok a, m)
    | Some (Multiple []) => (Throw TypeError, m)
    | Some (Single a) => (Ok a, m)
    | None =>
        match Segment_new (name ++ "|") (store m) with
        | (Ok a, h) =>
            (Ok a,
             mkMessage h
               (if push then (segments m ++ [a])%list else segments m)
               (prop_set (parsedSegments m) name (Single a)))
        | (Throw e, h) => (Throw e, m)
        end
    end.

(** [set], second listing (lines 305-342). *)
Definition set (path value : string) : M Message unit :=
  match parsePath path with
  | None => ret tt
  | Some p =>
      segment <- resolve true (segmentName p) ;;
      on_store (write segment p value)
  end.

(** [set], first listing (lines 10-43). *)
Definition set_variant1 (path value : string) : M Message unit :=
  match parsePath path with
  | None => ret tt
  | Some p =>
      segment <- resolve false (segmentName p) ;;
      on_store (write_variant1 segment p value)
  end.

(** A script of calls on one instance, and its run: the results of the
    calls so far, or the exception that ended the run. *)
Inductive call : Type :=
| CallGet (path : string)
| CallSet (path value : string)
| CallToString.

Fixpoint run (calls : list call) : M Message (list string) :=
  match calls with
  | [] => ret []
  | CallGet path :: rest =>
      fun m => (out <- run rest ;; ret (get m path :: out)) m
  | CallSet path value :: rest =>
      set path value ;;; run rest
  | CallToString :: rest =>
      fun m => (out <- run rest ;; ret (toString m :: out)) m
  end.

End Msg.

(* ------------------------------------------------------------------ *)
(** ** core/CustomValidator.ts *)

Module Validator.
Import JS Msg.

Inductive DataType : Type := ST | NM | DT | TS.

Record ValidationRule : Type := mkRule {
  path : string;
  required : option bool;
  dataType : option DataType;
  maxLength : option nat;
  allowedValues : option (list string);
  regex : option string
}.

Record ValidationError : Type := mkError {
  epath : string;
  message : string
}.

Record ValidationResult : Type := mkResult {
  isValid : bool;
  errors : list ValidationError
}.

Definition dquote : string := String (ascii_of_nat 34) "".

Definition number_to_string (n : nat) : string :=
  NilZero.string_of_uint (Nat.to_uint n).

Definition is_dataType (d : DataType) (x : option DataType) : bool :=
  match x, d with
  | Some ST, ST | Some NM, NM | Some DT, DT | Some TS, TS => true
  | _, _ => false
  end.

Section Validate.

(** [isNaN(Date.parse(value))] and [isNaN(Number(value))]: the two
    runtime conversions are taken as given. *)
Variable Date_parse_isNaN : string -> bool.
Variable Number_isNaN : string -> bool.

(** The condition of the first check,
    [rule.required && (!value || value.trim() === '')]. *)
Definition required_missing (rule : ValidationRule) (value : string) : bool :=
  match required rule with
  | Some true => (value =? "") || (trim value =? "")
  | _ => false
  end.

(** The body of the loop for one rule: the errors it pushes. *)
Definition check_rule (msg : Message) (rule : ValidationRule)
  : list ValidationError :=
  let value := get msg (path rule) in
  if required_missing rule value then
    [mkError (path rule) "The required field is missing."]
  else if value =? "" then []
  else
    ((match maxLength rule with
      | Some (S n) =>
          if Nat.ltb (S n) (String.length value) then
            [mkError (path rule)
               ("The value exceeds the maximum length of "
                  ++ number_to_string (S n) ++ ".")]
          else []
      | _ => []
      end)
     ++
     (match allowedValues rule with
      | Some allowed =>
          if mem value allowed then []
          else [mkError (path rule)
                  ("The value " ++ dquote ++ value ++ dquote
                     ++ " is not in the list of allowed values.")]
      | None => []
      end)
     ++
     (if is_dataType DT (dataType rule) && Date_parse_isNaN value then
        [mkError (path rule)
           ("The value " ++ dquote ++ value ++ dquote
              ++ " is not a valid date (YYYYMMDD).")]
      else [])
     ++
     (if is_dataType NM (dataType rule) && Number_isNaN value then
        [mkError (path rule)
           ("The value " ++ dquote ++ value ++ dquote
              ++ " is not a valid number.")]
      else []))%list.

Definition validate (rules : list ValidationRule) (msg : Message)
  : ValidationResult :=
  let errors :=
    fold_left (fun errors rule => (errors ++ check_rule msg rule)%list)
              rules [] in
  mkResult (Nat.eqb (List.length errors) 0) errors.

End Validate.

End Validator.

(* ------------------------------------------------------------------ *)
(** ** Properties stated by the specification *)

Module Spec.
Import JS Regex Seg Msg.

(** The path grammar as the specification writes it,
    [^([A-Z]{2,3}[0-9]?)-(\d+)(\.(\d+))?(\.(\d+))?$]. *)
Definition path_grammar : re :=
  Cat (Grp name_re)
 (Cat (Chr "-")
 (Cat (Grp digits)
 (Cat (Opt (Grp dot_digits)) (Opt (Grp dot_digits))))).

Definition well_formed_path (path : string) : Prop :=
  lang path_grammar path.

(** A well-formed path that does not resolve: its segment is not found,
    or the field, component or subcomponent index is out of range. *)
Definition unresolved (m : Message) (path : string) : Prop :=
  exists p, parsePath path = Some p /\
  match first_segment m (segmentName p) with
  | None => True
  | Some segment =>
      let fields := Segment_getFields (store m) segment in
      List.length fields <= fieldIndex p \/
      match componentIndex p with
      | None => False
      | Some ci =>
          let components :=
            split "^" (Segment_getField (store m) segment (fieldIndex p)) in
          ci = 0 \/ List.length components < ci \/
          match subcomponentIndex p with
          | None => False
          | Some si =>
              let subcomponents :=
                split "&" (Segment_getComponent (store m) segment
                             (fieldIndex p) ci) in
              si = 0 \/ List.length subcomponents < si
          end
      end
  end.

(** The cell at [a] is a Segment object. *)
Definition is_segment (h : heap) (a : addr) : Prop :=
  exists fields name, deref h a = Some (OSegment fields name).

(** The Segment at [a] is reachable from the name index. *)
Definition indexed (m : Message) (a : addr) : Prop :=
  exists k d, prop_get (parsedSegments m) k = Some d /\
  match d with
  | Single b => a = b
  | Multiple l => In a l
  end.

(** The data-model invariant of a document: the ordered list and the name
    index hold Segment objects, an array in the index is not empty, and
    every indexed Segment is in the ordered list. *)
Record document (m : Message) : Prop := mkDocument {
  doc_segments : Forall (is_segment (store m)) (segments m);
  doc_indexed : forall a, indexed m a -> is_segment (store m) a;
  doc_arrays : forall k, prop_get (parsedSegments m) k <> Some (Multiple []);
  doc_listed : forall a, indexed m a -> In a (segments m)
}.

(** Frame conditions on the heap.  [segments_untouched h h'] says that
    every Segment cell of [h] is the same in [h']; [segments_kept a h h']
    allows the cell at [a] to change its fields, not its name. *)
Definition segments_untouched (h h' : heap) : Prop :=
  forall b fields name,
    deref h b = Some (OSegment fields name) ->
    deref h' b = Some (OSegment fields name).

Definition segments_kept (a : addr) (h h' : heap) : Prop :=
  forall b fields name,
    deref h b = Some (OSegment fields name) ->
    if Nat.eqb b a
    then exists fields', deref h' b = Some (OSegment fields' name)
    else deref h' b = Some (OSegment fields name).

Definition untouching {A} (c : M heap A) : Prop :=
  forall h, segments_untouched h (snd (c h)).

Definition keeping (a : addr) {A} (c : M heap A) : Prop :=
  forall h, segments_kept a h (snd (c h)).

(** No character of [s] is a CR or an LF. *)
Fixpoint no_newline (s : string) : bool :=
  match s with
  | "" => true
  | String c rest =>
      negb (Ascii.eqb c LF) && negb (Ascii.eqb c CR) && no_newline rest
  end.

(** The name of a segment line: the text before its first field separator. *)
Definition line_name (line : string) : string := hd "" (split "|" line).

(** A segment line the constructor accepts as it is: it is not blank, holds
    no line break, and its name is neither a property of [Object.prototype]
    nor a member of the instance. *)
Definition segment_line (line : string) : bool :=
  not_blank line && no_newline line
  && negb (mem (line_name line) object_prototype_keys)
  && negb (mem (line_name line) member_names).

(** A raw text: a first line, then separator-line pairs. *)
Fixpoint raw_text (first : string) (more : list (string * string)) : string :=
  match more with
  | [] => first
  | (sep, line) :: more' => first ++ sep ++ raw_text line more'
  end.

(** The round-trip property for raw texts whose separators are drawn
    from [seps]. *)
Definition round_trips (seps : list string) : Prop :=
  forall first more,
    Forall (fun sl => In (fst sl) seps) more ->
    forallb segment_line (first :: map snd more) = true ->
    exists m,
      HL7Message_new (raw_text first more) = Built m /\
      toString m = join CRLF (first :: map snd more).

(** No script of calls raises, whatever the raw text. *)
Definition never_raises : Prop :=
  forall rawHL7 calls,
    exists m, HL7Message_new rawHL7 = Built m /\
    exists out m', run calls m = (Ok out, m').

(** Write-then-read through [set] and [get]. *)
Definition write_then_read (set_ : string -> string -> M Message unit) : Prop :=
  forall m path v,
    document m -> well_formed_path path ->
    exists m', set_ path v m = (Ok tt, m') /\ get m' path = v.

(** A write through a field view reaches the owning segment. *)
Definition write_propagates : Prop :=
  forall h seg f i v view h1 h2,
    is_segment h seg ->
    Segment_proxy_get seg f h = (Ok (Some view), h1) ->
    1 <= i ->
    HL7Field_proxy_set view i v h1 = (Ok tt, h2) ->
    Segment_getField h2 seg f = HL7Field_toString h2 view.

(** [set] on a segment name that is not in the index creates the segment,
    appends it to the ordered list and enters it in the index; the
    serialized text then ends with the line of the new segment. *)
Definition creates_segment (set_ : string -> string -> M Message unit) : Prop :=
  forall m path v p,
    document m -> parsePath path = Some p ->
    prop_get (parsedSegments m) (segmentName p) = None ->
    let m' := snd (set_ path v m) in
    exists a,
      getSegments m' = (getSegments m ++ [a])%list /\
      first_segment m' (segmentName p) = Some a /\
      Segment_getName (store m') a = segmentName p /\
      toString m' =
        match getSegments m with
        | [] => Segment_toString (store m') a
        | _ :: _ => toString m ++ CRLF ++ Segment_toString (store m') a
        end.

(** Every character of [s] satisfies [p]. *)
Definition all_chars (p : ascii -> bool) (s : string) : Prop :=
  Regex.run_length p s = String.length s.

Definition name_char (c : ascii) : bool := is_upper c || is_digit c.

(** The end-to-end scenario: a header line and a patient line joined by
    [sep], and the four observations made on the document. *)
Definition msh_line : string := "MSH|^~\&|A|B|C|D|20240101||ADT^A01|1|P|2.4".
Definition pid_line : string := "PID|1||X||DOE^JOHN".

Definition scenario (sep : string) : string := msh_line ++ sep ++ pid_line.

Definition end_to_end (sep : string) : Prop :=
  exists m,
    HL7Message_new (scenario sep) = Built m /\
    get m "PID-5.1" = "DOE" /\
    get m "PID-5.2" = "JOHN" /\
    get m "MSH-9" = "ADT^A01" /\
    hasSegment m "OBX" = false.

(** The same scenario as the code resolves it: two segments, and the
    header fields counted from the name at position 0. *)
Definition end_to_end_positional (sep : string) : Prop :=
  exists m,
    HL7Message_new (scenario sep) = Built m /\
    List.length (getSegments m) = 2 /\
    get m "PID-5.1" = "DOE" /\
    get m "PID-5.2" = "JOHN" /\
    get m "MSH-8" = "ADT^A01" /\
    get m "MSH-9" = "1" /\
    hasSegment m "OBX" = false.

(** The segment parsed from ["PID|1|"], alone on a heap. *)
Definition pid_empty_field : heap := snd (Segment_new "PID|1|" []).

(** Indexed read of field 2 gives a view of an empty field, and indexed
    read of field 99 gives [null]. *)
Definition absent_vs_empty : Prop :=
  (exists view h,
     Segment_proxy_get 0 2 pid_empty_field = (Ok (Some view), h) /\
     HL7Field_toString h view = "") /\
  Segment_proxy_get 0 99 pid_empty_field = (Ok None, pid_empty_field).

(** The message of the repository's test-suite (HL7Message.test.ts). *)
Definition sampleHL7 : string :=
  join (String LF "")
    [ "MSH|^~\&|SENDER|SENDFAC|RECEIVER|RECFAC|20230810120000||ADT^A01|MSG001|P|2.3";
      "PID|1|123456789||DOE^JOHN^M||19800101|M|||123 MAIN ST^^ANYTOWN^NY^12345||(555)123-4567|||S||987654321";
      "PV1|1|I|ICU^101^A|||DOCTOR^ATTENDING|||SUR|||A|||DOCTOR^ATTENDING|INP|INSURANCE||19|||||||||||||||||V";
      "OBX|1|NM|HEIGHT||180|cm|||||F";
      "OBX|2|NM|WEIGHT||75|kg|||||F" ].

(** The instance a raw text builds, for texts known to build one. *)
Definition built (rawHL7 : string) : Message :=
  match HL7Message_new rawHL7 with
  | Built m => m
  | _ => mkMessage [] [] []
  end.

End Spec.

(* ------------------------------------------------------------------ *)
(** ** core/Segment.ts, the remaining accessors *)

Module SegViews.
Import JS Seg.

Definition HL7Subcomponent_toString (h : heap) (a : addr) : string :=
  match deref h a with
  | Some (OSubcomponent value) => value
  | _ => ""
  end.

Definition HL7Component_toString (h : heap) (a : addr) : string :=
  match deref h a with
  | Some (OComponent value _) => value
  | _ => ""
  end.


(** [this.components[index - 1] || '']. *)
Definition HL7Field_getComponent (h : heap) (a : addr) (index : nat) : string :=
  or_empty (at1 (HL7Field_getComponents h a) index).

(** [getFieldObject(index)]: always a view, also of a missing field. *)
Definition Segment_getFieldObject (a : addr) (index : nat) : M heap addr :=
  fun h => HL7Field_new (Segment_getField h a index) h.

(** The bracket reads of the demos and tests, with optional chaining:
    [segment[f]?.toString()], [segment[f]?.[c]?.toString()] and
    [segment[f]?.[c]?.[s]?.toString()]; [None] is [undefined]. *)
Definition bracket_field (a : addr) (f : nat) : M heap (option string) :=
  v <- Segment_proxy_get a f ;;
  match v with
  | None => ret None
  | Some fv => fun h => (Ok (Some (HL7Field_toString h fv)), h)
  end.

Definition bracket_component (a : addr) (f c : nat) : M heap (option string) :=
  v <- Segment_proxy_get a f ;;
  match v with
  | None => ret None
  | Some fv =>
      w <- HL7Field_proxy_get fv c ;;
      match w with
      | None => ret None
      | Some cv => fun h => (Ok (Some (HL7Component_toString h cv)), h)
      end
  end.

Definition bracket_subcomponent (a : addr) (f c s : nat)
  : M heap (option string) :=
  v <- Segment_proxy_get a f ;;
  match v with
  | None => ret None
  | Some fv =>
      w <- HL7Field_proxy_get fv c ;;
      match w with
      | None => ret None
      | Some cv =>
          x <- HL7Component_proxy_get cv s ;;
          match x with
          | None => ret None
          | Some sv =>
              fun h => (Ok (Some (HL7Subcomponent_toString h sv)), h)
          end
      end
  end.

(** The invariant of a view: its text is its children joined. *)
Definition field_consistent (h : heap) (a : addr) : Prop :=
  exists value components,
    deref h a = Some (OField value components) /\
    value = join "^" components.


(** No character of [s] is [d]. *)
Fixpoint free_of (d : ascii) (s : string) : bool :=
  match s with
  | "" => true
  | String c rest => negb (Ascii.eqb c d) && free_of d rest
  end.

End SegViews.

(* ------------------------------------------------------------------ *)
(** ** core/HL7Message.ts, the segment accessors *)

Module MsgAccess.
Import JS Seg Msg.

(** What a read of [this.parsedSegments[name]] can hand out besides
    [undefined]: a Segment, or the value [Object.prototype] holds under
    that name. *)
Inductive entry : Type :=
| Seg (a : addr)
| Inherited (key : string).

Definition getAllSegments (m : Message) (name : string) : list entry :=
  match prop_get (parsedSegments m) name with
  | Some (Multiple l) => map Seg l
  | Some (Single a) => [Seg a]
  | None => if mem name object_prototype_keys then [Inherited name] else []
  end.

Definition getSegment (m : Message) (name : string) : option entry :=
  match prop_get (parsedSegments m) name with
  | Some (Multiple l) => option_map Seg (hd_error l)
  | Some (Single a) => Some (Seg a)
  | None => if mem name object_prototype_keys then Some (Inherited name)
            else None
  end.

(** The segments of the ordered list whose name is [name]. *)
Definition named (m : Message) (name : string) : list addr :=
  filter (fun a => Segment_getName (store m) a =? name) (segments m).

(** No character of [s] is an LF. *)
Definition no_LF (s : string) : bool := SegViews.free_of LF s.

(** The line is named like a property of [Object.prototype]. *)
Definition prototype_named (line : string) : bool :=
  mem (Spec.line_name line) object_prototype_keys.

(** The line is named like a member of the instance. *)
Definition member_named (line : string) : bool :=
  mem (Spec.line_name line) member_names.

(** [parsed[name]], read as the empty group when the key is missing. *)
Definition group_of (parsed : list (string * list addr)) (name : string)
  : list addr :=
  match prop_get parsed name with
  | Some g => g
  | None => []
  end.

(** The lines the constructor keeps. *)
Definition kept_lines (rawHL7 : string) : list string :=
  filter not_blank (split_lines rawHL7).

End MsgAccess.

(* ------------------------------------------------------------------ *)
(** ** core/HL7Builder.ts

    The [fields] argument is an object whose keys are field indices; it is
    modelled as an association list with natural-number keys, each of
    them an array index as the field indices of a segment are. *)

Module Builder.
Import JS Seg Msg.







Definition build (segments : list string) : constructed :=
  HL7Message_new (join CRLF segments).



End Builder.

(* ------------------------------------------------------------------ *)
(** ** The text of a path

    What a caller writes to address a field, a component or a
    subcomponent: the name, a dash, the field index and up to two dotted
    indices, each index in decimal digits. *)

Module PathText.
Import JS Regex Msg Spec.

Definition digit_string (s : string) : Prop :=
  s <> "" /\ all_chars is_digit s.

Definition optional_digits (x : option string) : Prop :=
  match x with
  | Some s => digit_string s
  | None => True
  end.

Definition dotted (x : option string) (more : string) : string :=
  match x with
  | Some s => "." ++ s ++ more
  | None => ""
  end.

Definition path_text (name field : string) (component subcomponent : option string)
  : string :=
  name ++ "-" ++ field ++ dotted component (dotted subcomponent "").

(** The parts [parsePath] is expected to return for a path text. *)
Definition parts_of (name field : string) (component subcomponent : option string)
  : PathParts :=
  {| segmentName := name;
     fieldIndex := parseInt field;
     componentIndex := option_map parseInt component;
     subcomponentIndex := option_map parseInt subcomponent |}.

End PathText.

(* ------------------------------------------------------------------ *)
(** ** The part of a rule the validator looks at *)

Module RuleParts.
Import JS Validator.

(** A rule with the properties [validate] never tests taken away: the
    [regex], a [dataType] other than ['DT'] and ['NM'], and a [maxLength]
    of 0. *)
Definition checked_part (rule : ValidationRule) : ValidationRule :=
  {| path := path rule;
     required := required rule;
     dataType :=
       match dataType rule with
       | Some DT => Some DT
       | Some NM => Some NM
       | _ => None
       end;
     maxLength :=
       match maxLength rule with
       | Some (S n) => Some (S n)
       | _ => None
       end;
     allowedValues := allowedValues rule;
     regex := None |}.

Definition missing_error (rule : ValidationRule) : ValidationError :=
  mkError (path rule) "The required field is missing.".

End RuleParts.

(* ------------------------------------------------------------------ *)
(** ** Proof tactics *)

(** Decompose every hypothesis that a concrete regular expression
    matches. *)
Ltac invert_sem :=
  repeat match goal with
  | H : Regex.sem (Regex.Cat _ _) _ _ |- _ => inversion H; subst; clear H
  | H : Regex.sem (Regex.Grp _) _ _ |- _ => inversion H; subst; clear H
  | H : Regex.sem (Regex.Opt _) _ _ |- _ => inversion H; subst; clear H
  | H : Regex.sem (Regex.Chr _) _ _ |- _ => inversion H; subst; clear H
  | H : Regex.sem (Regex.Cls _ _ _) _ _ |- _ => inversion H; subst; clear H
  end.

(** Split a conjunction into its conjuncts, and nothing else. *)
Ltac conjuncts :=
  repeat match goal with
  | |- _ /\ _ => split
  end.

(* ------------------------------------------------------------------ *)
(** ** Facts about the runtime primitives *)

Module JSFacts.
Import JS.

Lemma append_nil_r (s : string) : s ++ "" = s.
Proof. induction s as [|c s IH]; simpl; [reflexivity | now rewrite IH]. Qed.

Lemma append_assoc (s1 s2 s3 : string) : (s1 ++ s2) ++ s3 = s1 ++ s2 ++ s3.
Proof. induction s1 as [|c s1 IH]; simpl; [reflexivity | now rewrite IH]. Qed.

Lemma length_append (s1 s2 : string) :
  String.length (s1 ++ s2) = String.length s1 + String.length s2.
Proof. induction s1 as [|c s1 IH]; simpl; [reflexivity | now rewrite IH]. Qed.

Lemma append_eq_nil (s1 s2 : string) : s1 ++ s2 = "" -> s1 = "" /\ s2 = "".
Proof. destruct s1; simpl; [auto | discriminate]. Qed.

Lemma split_not_nil (d : ascii) (s : string) : split d s <> [].
Proof.
  induction s as [|c s IH]; simpl; [discriminate|].
  destruct (Ascii.eqb c d); [discriminate|].
  destruct (split d s); simpl; discriminate.
Qed.

Lemma join_prepend (sep : string) (c : ascii) (ls : list string) :
  ls <> [] -> join sep (prepend c ls) = String c (join sep ls).
Proof.
  destruct ls as [|l [|l' ls]]; simpl; [congruence | reflexivity..].
Qed.

(** Joining what [split] produced gives the text back. *)
Lemma join_split (d : ascii) (s : string) :
  join (String d "") (split d s) = s.
Proof.
  induction s as [|c s IH]; [reflexivity|].
  simpl. destruct (Ascii.eqb_spec c d) as [->|Hne].
  - unfold join in *.
    destruct (split d s) eqn:E; [now apply split_not_nil in E|].
    cbn [String.concat append]. f_equal. exact IH.
  - rewrite join_prepend by apply split_not_nil. now rewrite IH.
Qed.

Lemma hd_prepend (c : ascii) (ls : list string) :
  hd "" (prepend c ls) = String c (hd "" ls).
Proof. destruct ls; reflexivity. Qed.

(** A line without line breaks is one piece for [split_lines]. *)
Lemma split_lines_line (l : string) :
  Spec.no_newline l = true -> split_lines l = [l].
Proof.
  induction l as [|c l IH]; simpl; [reflexivity|].
  intros H. apply andb_prop in H as [H Hl]. apply andb_prop in H as [H1 H2].
  apply negb_true_iff in H1, H2. rewrite H1, H2.
  now rewrite (IH Hl).
Qed.

(** An LF after such a line ends it. *)
Lemma split_lines_LF (l rest : string) :
  Spec.no_newline l = true ->
  split_lines (l ++ String LF rest) = l :: split_lines rest.
Proof.
  induction l as [|c l IH]; simpl; [reflexivity|].
  intros H. apply andb_prop in H as [H Hl]. apply andb_prop in H as [H1 H2].
  apply negb_true_iff in H1, H2. rewrite H1, H2.
  now rewrite (IH Hl).
Qed.

(** So does a CR LF pair. *)
Lemma split_lines_CRLF (l rest : string) :
  Spec.no_newline l = true ->
  split_lines (l ++ CRLF ++ rest) = l :: split_lines rest.
Proof.
  change (CRLF ++ rest) with (String CR (String LF rest)).
  induction l as [|c l IH]; simpl; [reflexivity|].
  intros H. apply andb_prop in H as [H Hl]. apply andb_prop in H as [H1 H2].
  apply negb_true_iff in H1, H2. rewrite H1, H2.
  now rewrite (IH Hl).
Qed.

(** A CR that no LF follows does not end the line. *)
Lemma split_lines_CR (l rest : string) :
  Spec.no_newline l = true -> Spec.no_newline rest = true ->
  split_lines (l ++ String CR rest) = [l ++ String CR rest].
Proof.
  intros Hl Hrest. induction l as [|c l IH].
  - cbn [append split_lines].
    replace (Ascii.eqb CR LF) with false by reflexivity.
    replace (Ascii.eqb CR CR) with true by reflexivity.
    rewrite (split_lines_line _ Hrest).
    destruct rest as [|c' rest']; [reflexivity|].
    simpl in Hrest. apply andb_prop in Hrest as [H _].
    apply andb_prop in H as [H1 _]. apply negb_true_iff in H1.
    now rewrite H1.
  - simpl in Hl. apply andb_prop in Hl as [H Hl'].
    apply andb_prop in H as [H1 H2]. apply negb_true_iff in H1, H2.
    cbn [append split_lines]. rewrite H1, H2, (IH Hl'). reflexivity.
Qed.


Lemma array_set_same (arr : list string) (i : nat) (v : string) :
  i < List.length arr -> nth_error (array_set arr i v) i = Some v.
Proof.
  revert i; induction arr as [|x arr IH]; intros [|i]; simpl; intros H;
    try lia; [reflexivity | apply IH; lia].
Qed.

Lemma pad_to_length (n : nat) (arr : list string) :
  n <= List.length (pad_to n arr).
Proof. unfold pad_to. rewrite length_app, repeat_length. lia. Qed.

Lemma pad_to_inside (n : nat) (arr : list string) :
  n <= List.length arr -> pad_to n arr = arr.
Proof.
  intros H. unfold pad_to. replace (n - List.length arr) with 0 by lia.
  simpl. now rewrite app_nil_r.
Qed.

End JSFacts.

(* ------------------------------------------------------------------ *)
(** ** The matcher agrees with the declarative reading *)

Module RegexFacts.
Import JS Regex JSFacts.

Lemma take_drop (n : nat) (s : string) : take n s ++ drop n s = s.
Proof.
  revert s; induction n as [|n IH]; intros [|c s]; simpl; try reflexivity.
  now rewrite IH.
Qed.

Lemma length_take (n : nat) (s : string) :
  n <= String.length s -> String.length (take n s) = n.
Proof.
  revert s; induction n as [|n IH]; intros [|c s]; simpl; intros H;
    try reflexivity; try lia.
  rewrite IH; lia.
Qed.

Lemma run_length_le (p : ascii -> bool) (s : string) :
  run_length p s <= String.length s.
Proof.
  induction s as [|c s IH]; simpl; [lia|]. destruct (p c); lia.
Qed.

Lemma run_length_take (p : ascii -> bool) (n : nat) (s : string) :
  n <= run_length p s -> run_length p (take n s) = n.
Proof.
  revert s; induction n as [|n IH]; intros [|c s]; simpl; intros H;
    try reflexivity; try lia.
  destruct (p c); [|lia]. rewrite IH; lia.
Qed.

Lemma run_length_append (p : ascii -> bool) (w s : string) :
  run_length p w = String.length w ->
  String.length w <= run_length p (w ++ s).
Proof.
  induction w as [|c w IH]; simpl; [lia|].
  destruct (p c); [|discriminate]. intros H. injection H as H.
  specialize (IH H). lia.
Qed.

Lemma take_append (w s : string) : take (String.length w) (w ++ s) = w.
Proof. induction w as [|c w IH]; simpl; [now destruct s | now rewrite IH]. Qed.

Lemma drop_append (w s : string) : drop (String.length w) (w ++ s) = s.
Proof. induction w as [|c w IH]; simpl; [now destruct s | exact IH]. Qed.

Lemma in_counts (n m lo : nat) : In n (counts m lo) <-> lo <= n <= m.
Proof.
  induction m as [|m IH]; simpl.
  - destruct lo; simpl; [|lia]. intuition lia.
  - destruct (Nat.ltb_spec (S m) lo) as [Hlt|Hge]; simpl; [lia|].
    rewrite IH. lia.
Qed.

Lemma bounded_spec (hi : option nat) (k n : nat) :
  n <= bounded hi k <-> n <= k /\ (forall h, hi = Some h -> n <= h).
Proof.
  destruct hi as [h|]; simpl.
  - split.
    + intros H; split; [lia|]. intros h' [= <-]. lia.
    + intros [H1 H2]. specialize (H2 h eq_refl). lia.
  - split; [intros H; split; [lia | discriminate] | tauto].
Qed.

(** Every hit the matcher lists is a match in the declarative sense. *)
Lemma matches_sound (r : re) :
  forall s h, In h (matches r s) ->
    s = matched h ++ rest h /\ sem r (matched h) (groups h).
Proof.
  induction r as [c | p lo hi | r1 IH1 r2 IH2 | r1 IH1 | r1 IH1];
    intros s h Hin; simpl in Hin.
  - destruct s as [|c' s']; [contradiction|].
    destruct (Ascii.eqb_spec c' c) as [->|]; [|contradiction].
    destruct Hin as [<-|[]]. simpl. split; [reflexivity | constructor].
  - apply in_map_iff in Hin as (n & <- & Hn). simpl.
    apply in_counts in Hn as [Hlo Hhi].
    apply bounded_spec in Hhi as [Hk Hh].
    pose proof (run_length_le p s) as Hle.
    split; [now rewrite take_drop|].
    constructor.
    + rewrite run_length_take by exact Hk. rewrite length_take by lia.
      reflexivity.
    + now rewrite length_take by lia.
    + intros h Eh. rewrite length_take by lia. now apply Hh.
  - apply in_flat_map in Hin as (h1 & H1 & Hin).
    apply in_map_iff in Hin as (h2 & <- & H2). simpl.
    destruct (IH1 _ _ H1) as [E1 S1]. destruct (IH2 _ _ H2) as [E2 S2].
    split; [|now constructor].
    rewrite append_assoc, <- E2. exact E1.
  - apply in_app_or in Hin as [Hin|[<-|[]]].
    + destruct (IH1 _ _ Hin) as [E1 S1]. split; [exact E1 | now constructor].
    + simpl. split; [reflexivity | apply sem_Opt_none].
  - apply in_map_iff in Hin as (h1 & <- & H1). simpl.
    destruct (IH1 _ _ H1) as [E1 S1]. split; [exact E1 | now constructor].
Qed.

(** Every match in the declarative sense is among the hits. *)
Lemma matches_complete (r : re) (w : string) (g : captures) :
  sem r w g -> forall s, In (mkHit w g s) (matches r (w ++ s)).
Proof.
  induction 1 as [c | p lo hi w Hrun Hlo Hhi
                  | r1 r2 w1 w2 g1 g2 _ IH1 _ IH2
                  | r w g _ IH | r | r w g _ IH]; intros s; simpl.
  - rewrite Ascii.eqb_refl. now left.
  - apply in_map_iff. exists (String.length w). split.
    + now rewrite take_append, drop_append.
    + apply in_counts. split; [exact Hlo|].
      apply bounded_spec. split; [now apply run_length_append | exact Hhi].
  - apply in_flat_map. exists (mkHit w1 g1 (w2 ++ s)). split.
    + rewrite append_assoc. apply IH1.
    + apply in_map_iff. exists (mkHit w2 g2 s). split; [reflexivity | apply IH2].
  - apply in_or_app. left. apply IH.
  - apply in_or_app. right. now left.
  - apply in_map_iff. exists (mkHit w g s). split; [reflexivity | apply IH].
Qed.

Lemma exec_sound (r : re) (s : string) (g : captures) :
  exec r s = Some g -> sem r s g.
Proof.
  unfold exec. destruct (filter _ _) as [|h hs] eqn:E; [discriminate|].
  intros [= <-].
  assert (Hin : In h (filter full (matches r s)))
    by (rewrite E; now left).
  apply filter_In in Hin as [Hin Hrest].
  apply String.eqb_eq in Hrest.
  destruct (matches_sound _ _ _ Hin) as [Es Hs].
  rewrite Hrest, append_nil_r in Es. now rewrite Es.
Qed.

Lemma exec_complete (r : re) (s : string) :
  lang r s -> exists g, exec r s = Some g.
Proof.
  intros [g Hs]. pose proof (matches_complete Hs "") as Hin.
  rewrite append_nil_r in Hin.
  unfold exec. destruct (filter _ _) as [|h hs] eqn:E; [|eauto].
  exfalso.
  assert (Hf : In (mkHit s g "") (filter full (matches r s)))
    by (apply filter_In; split; [exact Hin | reflexivity]).
  now rewrite E in Hf.
Qed.

(** The whole-input matcher decides the language. *)
Lemma exec_lang (r : re) (s : string) : exec r s <> None <-> lang r s.
Proof.
  split.
  - destruct (exec r s) as [g|] eqn:E; [|congruence].
    intros _. exists g. now apply exec_sound.
  - intros H. destruct (exec_complete H) as [g ->]. discriminate.
Qed.

(** Capturing parentheses do not change the language. *)
Lemma sem_strip (r : re) (w : string) (g : captures) :
  sem r w g -> lang (strip r) w.
Proof.
  induction 1 as [c | p lo hi w Hrun Hlo Hhi
                  | r1 r2 w1 w2 g1 g2 _ [g1' IH1] _ [g2' IH2]
                  | r w g _ [g' IH] | r | r w g _ [g' IH]]; simpl.
  - eexists; constructor.
  - eexists; constructor; assumption.
  - eexists; constructor; eassumption.
  - eexists; apply sem_Opt_some; eassumption.
  - eexists; apply sem_Opt_none.
  - eexists; eassumption.
Qed.

Lemma strip_sem (r : re) :
  forall w g, sem (strip r) w g -> lang r w.
Proof.
  induction r as [c | p lo hi | r1 IH1 r2 IH2 | r1 IH1 | r1 IH1];
    simpl; intros w g H.
  - now exists g.
  - now exists g.
  - inversion H as [ | | ? ? w1 w2 g1 g2 Ha Hb | | | ]; subst.
    destruct (IH1 _ _ Ha) as [g1' H1]. destruct (IH2 _ _ Hb) as [g2' H2].
    eexists; constructor; eassumption.
  - inversion H as [ | | | ? ? ? Ha | ? | ]; subst.
    + destruct (IH1 _ _ Ha) as [g1' H1].
      eexists; apply sem_Opt_some; eassumption.
    + eexists; apply sem_Opt_none.
  - destruct (IH1 _ _ H) as [g1' H1]. eexists; constructor; eassumption.
Qed.

Lemma lang_strip (r : re) (w : string) : lang (strip r) w <-> lang r w.
Proof.
  split; intros [g H]; [now apply strip_sem in H | now apply sem_strip in H].
Qed.

(** *** The first full hit *)

Lemma exec_first (r : re) (s : string) :
  exec r s = option_map groups (hd_error (filter full (matches r s))).
Proof. unfold exec. now destruct (filter full (matches r s)). Qed.

Lemma first_flat_map {A B} (p : B -> bool) (f : A -> list B) (l : list A)
  (x : B) :
  hd_error (filter p (flat_map f l)) = Some x ->
  exists a, In a l /\ hd_error (filter p (f a)) = Some x.
Proof.
  induction l as [|a l IH]; simpl; [discriminate|].
  rewrite filter_app.
  destruct (filter p (f a)) as [|y ys] eqn:E; simpl.
  - intros H. destruct (IH H) as (a' & Hin & Ha'). exists a'. auto.
  - intros [= <-]. exists a. rewrite E. auto.
Qed.

Lemma first_map {A B} (p : B -> bool) (q : A -> bool) (g : A -> B)
  (l : list A) :
  (forall a, p (g a) = q a) ->
  hd_error (filter p (map g l)) = option_map g (hd_error (filter q l)).
Proof.
  intros Hpq. induction l as [|a l IH]; simpl; [reflexivity|].
  rewrite Hpq. destruct (q a); simpl; [reflexivity | exact IH].
Qed.

(** The first full hit of a concatenation is made of a hit of the left
    part and the first full hit of the right part on what is left. *)
Lemma exec_Cat (r1 r2 : re) (s : string) (g : captures) :
  exec (Cat r1 r2) s = Some g ->
  exists h1 g2, In h1 (matches r1 s) /\ exec r2 (rest h1) = Some g2 /\
                g = (groups h1 ++ g2)%list.
Proof.
  rewrite exec_first. cbn [matches].
  destruct (hd_error _) as [x|] eqn:E; [|discriminate].
  intros [= <-].
  apply first_flat_map in E as (h1 & Hin & E).
  rewrite (first_map full full) in E by reflexivity.
  exists h1. rewrite exec_first.
  destruct (hd_error (filter full (matches r2 (rest h1)))) as [h2|];
    [|discriminate].
  injection E as <-. exists (groups h2). auto.
Qed.

Lemma sem_ngroups (r : re) (w : string) (g : captures) :
  sem r w g -> List.length g = ngroups r.
Proof.
  induction 1; simpl; try reflexivity; try assumption.
  - rewrite length_app. congruence.
  - apply repeat_length.
  - congruence.
Qed.

End RegexFacts.

(* ------------------------------------------------------------------ *)
(** ** The path resolver *)

Module PathFacts.
Import JS Regex Seg Msg Spec JSFacts RegexFacts.

Lemma nonempty_of_length (w s : string) :
  1 <= String.length w -> w ++ s <> "".
Proof. destruct w; simpl; [lia | discriminate]. Qed.

Lemma all_chars_append (p : ascii -> bool) (w1 w2 : string) :
  all_chars p w1 -> all_chars p w2 -> all_chars p (w1 ++ w2).
Proof.
  unfold all_chars. induction w1 as [|c w1 IH]; simpl; [auto|].
  destruct (p c); [|discriminate]. intros [= H1] H2. now rewrite IH.
Qed.

Lemma all_chars_weaken (p q : ascii -> bool) (s : string) :
  (forall c, p c = true -> q c = true) -> all_chars p s -> all_chars q s.
Proof.
  unfold all_chars. intros Hpq. induction s as [|c s IH]; simpl; [auto|].
  destruct (p c) eqn:E; [|discriminate]. rewrite (Hpq _ E).
  intros [= H]. now rewrite IH.
Qed.

Lemma sem_name_re (w : string) (g : captures) :
  sem name_re w g -> all_chars name_char w.
Proof.
  unfold name_re. intros H. invert_sem.
  - apply all_chars_append.
    + eapply all_chars_weaken; [|eassumption].
      intros c Hc. unfold name_char. now rewrite Hc.
    + eapply all_chars_weaken; [|eassumption].
      intros c Hc. unfold name_char. rewrite Hc. apply orb_true_r.
  - rewrite append_nil_r.
    eapply all_chars_weaken; [|eassumption].
    intros c Hc. unfold name_char. now rewrite Hc.
Qed.

(** A match of [pathRegex] fills the first two groups with non-empty text,
    and the first is made of upper-case letters and digits. *)
Lemma pathRegex_groups (s : string) (g : captures) :
  sem pathRegex s g ->
  exists n f m3 m4,
    g = [Some n; Some f; m3; m4] /\ n <> "" /\ f <> "" /\
    all_chars name_char n.
Proof.
  unfold pathRegex. intros H.
  inversion H as [ | | ? ? w1 w2 g1 g2 Ha Hb | | | ]; subst; clear H.
  inversion Ha as [ | | | | | ? ? g1' Hn ]; subst; clear Ha.
  pose proof (sem_name_re Hn) as Hname.
  unfold name_re, dot_digits, digits in *. invert_sem; simpl;
    (do 4 eexists; split; [reflexivity|]; split;
     [ apply nonempty_of_length; lia
     | split; [|exact Hname];
       match goal with
       | Hlen : 1 <= String.length ?w |- ?w <> "" =>
           destruct w; simpl in Hlen; [lia | discriminate]
       end ]).
Qed.

(** The source pattern and the grammar of the specification differ only
    in their parentheses. *)
Lemma pathRegex_lang (s : string) : lang pathRegex s <-> well_formed_path s.
Proof.
  unfold well_formed_path.
  rewrite <- (lang_strip pathRegex), <- (lang_strip path_grammar).
  reflexivity.
Qed.

(** [parsePath] accepts exactly the well-formed paths. *)
Lemma parsePath_accepts (path : string) :
  (exists p, parsePath path = Some p) <-> well_formed_path path.
Proof.
  rewrite <- pathRegex_lang. split.
  - intros [p Hp]. unfold parsePath in Hp.
    destruct (exec pathRegex path) as [g|] eqn:E; [|discriminate].
    exists g. now apply exec_sound.
  - intros Hl. destruct (exec_complete Hl) as [g E].
    destruct (pathRegex_groups (exec_sound _ _ E))
      as (n & f & m3 & m4 & -> & Hn & Hf & _).
    unfold parsePath. rewrite E. simpl.
    apply String.eqb_neq in Hn, Hf. rewrite Hn, Hf. simpl. eauto.
Qed.

Lemma parsePath_rejects (path : string) :
  parsePath path = None <-> ~ well_formed_path path.
Proof.
  rewrite <- parsePath_accepts. split.
  - intros -> [p Hp]. discriminate.
  - intros H. destruct (parsePath path) as [p|]; [|reflexivity].
    exfalso. apply H. eauto.
Qed.

Lemma parsePath_name (path : string) (p : PathParts) :
  parsePath path = Some p -> all_chars name_char (segmentName p).
Proof.
  unfold parsePath.
  destruct (exec pathRegex path) as [g|] eqn:E; [|discriminate].
  destruct (pathRegex_groups (exec_sound _ _ E))
    as (n & f & m3 & m4 & -> & Hn & Hf & Hname).
  simpl. apply String.eqb_neq in Hn, Hf. rewrite Hn, Hf. simpl.
  intros [= <-]. exact Hname.
Qed.

(** *** Priority: the component is captured before the subcomponent *)

Lemma dot_digits_groups (s : string) (h : hit) :
  In h (matches dot_digits s) ->
  exists w, groups h = [Some w] /\ w <> "".
Proof.
  intros Hin. apply matches_sound in Hin as [_ Hs].
  unfold dot_digits, digits in Hs. invert_sem. simpl.
  eexists. split; [reflexivity|].
  match goal with
  | Hlen : 1 <= String.length ?w |- ?w <> "" =>
      destruct w; simpl in Hlen; [lia | discriminate]
  end.
Qed.

Lemma opt_dot_digits_groups (s : string) (h : hit) :
  In h (matches (Opt dot_digits) s) ->
  groups h = [None] \/ exists w, groups h = [Some w] /\ w <> "".
Proof.
  cbn [matches]. intros Hin. apply in_app_or in Hin as [Hin|[<-|[]]].
  - right. now apply dot_digits_groups in Hin.
  - left. reflexivity.
Qed.

(** With two optional [\.(\d+)] in a row the first one takes the digits:
    the second capture is set only when the first is. *)
Lemma tail_groups (s : string) (g : captures) :
  exec (Cat (Opt dot_digits) (Opt dot_digits)) s = Some g ->
  exists m3 m4, g = [m3; m4] /\ (m3 = None -> m4 = None) /\
                m3 <> Some "" /\ m4 <> Some "".
Proof.
  intros E. pose proof E as E'.
  apply exec_Cat in E as (h1 & g2 & Hin1 & E2 & ->).
  assert (Hg2 : g2 = [None] \/ exists w, g2 = [Some w] /\ w <> "").
  { rewrite exec_first in E2.
    destruct (hd_error _) as [h2|] eqn:Eh; [|discriminate].
    injection E2 as <-. apply opt_dot_digits_groups with (s := rest h1).
    destruct (filter full (matches (Opt dot_digits) (rest h1))) as [|y ys] eqn:F;
      [discriminate|].
    injection Eh as ->.
    assert (Hy : In h2 (filter full (matches (Opt dot_digits) (rest h1))))
      by (rewrite F; now left).
    now apply filter_In in Hy as [Hy _]. }
  destruct (opt_dot_digits_groups _ _ Hin1) as [H1|(w & H1 & Hw)]; rewrite H1.
  - (* the first optional part was skipped *)
    destruct Hg2 as [->|(w & -> & Hw)].
    + exists None, None. repeat split; congruence.
    + exfalso.
      (* then the second took a full [\.(\d+)], which the first would
         have taken before *)
      cbn [matches] in Hin1. apply in_app_or in Hin1 as [Hin1|[<-|[]]].
      { apply dot_digits_groups in Hin1 as (w' & Hw' & _). congruence. }
      cbn [rest] in E2. rewrite exec_first in E2.
      destruct (hd_error _) as [h2|] eqn:Eh; [|discriminate].
      injection E2 as Eg.
      destruct (filter full (matches (Opt dot_digits) s)) as [|y ys] eqn:F;
        [discriminate|].
      injection Eh as ->.
      assert (Hy : In h2 (filter full (matches (Opt dot_digits) s)))
        by (rewrite F; now left).
      apply filter_In in Hy as [Hy Hfull].
      cbn [matches] in Hy. apply in_app_or in Hy as [Hy|[<-|[]]];
        [|discriminate].
      (* [h2] is a full hit of [dot_digits] on [s]: taking it first and
         skipping the second part is an earlier full hit *)
      rewrite exec_first in E'. cbn [matches] in E'.
      rewrite flat_map_app, filter_app in E'.
      set (F1 := fun h1 : hit =>
             map (fun h2 : hit =>
                    mkHit (matched h1 ++ matched h2)
                          (groups h1 ++ groups h2)%list (rest h2))
                 (matches dot_digits (rest h1)
                    ++ [mkHit "" (repeat None (ngroups dot_digits)) (rest h1)])%list)
        in E'.
      assert (Hearly : In (mkHit (matched h2 ++ "")
                             (groups h2 ++ repeat None (ngroups dot_digits))%list
                             (rest h2))
                          (filter full (flat_map F1 (matches dot_digits s)))).
      { apply filter_In. split; [|exact Hfull].
        apply in_flat_map. exists h2. split; [exact Hy|].
        unfold F1. apply in_map_iff.
        exists (mkHit "" (repeat None (ngroups dot_digits)) (rest h2)).
        split; [reflexivity|]. apply in_or_app. right. now left. }
      destruct (filter full (flat_map F1 (matches dot_digits s)))
        as [|x xs] eqn:L; [contradiction|].
      cbn [app hd_error option_map] in E'. injection E' as E'.
      assert (Hx : In x (filter full (flat_map F1 (matches dot_digits s))))
        by (rewrite L; now left).
      apply filter_In in Hx as [Hx _].
      apply in_flat_map in Hx as (ha & Ha & Hx).
      unfold F1 in Hx. apply in_map_iff in Hx as (hb & <- & _).
      cbn [groups] in E'.
      apply dot_digits_groups in Ha as (wa & Hwa & _).
      rewrite Hwa in E'. discriminate.
  - destruct Hg2 as [->|(w' & -> & Hw')].
    + exists (Some w), None. repeat split; congruence.
    + exists (Some w), (Some w'). repeat split; congruence.
Qed.

(** [parsePath] never yields a subcomponent index without a component
    index. *)
Lemma parsePath_component_first (path : string) (p : PathParts) :
  parsePath path = Some p ->
  componentIndex p = None -> subcomponentIndex p = None.
Proof.
  unfold parsePath.
  destruct (exec pathRegex path) as [g|] eqn:E; [|discriminate].
  destruct (pathRegex_groups (exec_sound _ _ E))
    as (n & f & m3 & m4 & -> & Hn & Hf & _).
  unfold pathRegex in E.
  apply exec_Cat in E as (h1 & g1 & Hin1 & E & Eg1).
  apply exec_Cat in E as (h2 & g2 & Hin2 & E & ->).
  apply exec_Cat in E as (h3 & g3 & Hin3 & E & ->).
  apply tail_groups in E as (m3' & m4' & -> & Horder & Hm3 & Hm4).
  apply matches_sound in Hin1 as [_ S1]. apply sem_ngroups in S1.
  apply matches_sound in Hin2 as [_ S2]. apply sem_ngroups in S2.
  apply matches_sound in Hin3 as [_ S3]. apply sem_ngroups in S3.
  cbn in S1, S2, S3.
  destruct (groups h1) as [|a [|? ?]]; try discriminate.
  destruct (groups h2) as [|? ?]; try discriminate.
  destruct (groups h3) as [|c [|? ?]]; try discriminate.
  cbn [app] in Eg1. injection Eg1 as _ _ -> ->.
  simpl. apply String.eqb_neq in Hn, Hf. rewrite Hn, Hf. simpl.
  intros [= <-]. cbn [componentIndex subcomponentIndex].
  destruct m3' as [w3|].
  - unfold truthy. destruct (String.eqb_spec w3 ""); [congruence|].
    discriminate.
  - intros _. now rewrite (Horder eq_refl).
Qed.

End PathFacts.

(* ------------------------------------------------------------------ *)
(** ** Segments, views and the heap *)

Module SegFacts.
Import JS Seg Msg Spec JSFacts.

Lemma deref_alloc_old (h : heap) (o : obj) (b : addr) (x : obj) :
  deref h b = Some x -> deref (h ++ [o])%list b = Some x.
Proof.
  unfold deref. intros H.
  rewrite nth_error_app1; [exact H|].
  apply nth_error_Some. congruence.
Qed.

Lemma deref_alloc_new (h : heap) (o : obj) :
  deref (h ++ [o])%list (List.length h) = Some o.
Proof.
  unfold deref. rewrite nth_error_app2 by lia.
  now rewrite Nat.sub_diag.
Qed.

Lemma deref_update_same (h : heap) (a : addr) (o x : obj) :
  deref h a = Some x -> deref (update h a o) a = Some o.
Proof.
  unfold deref. revert a; induction h as [|y h IH]; intros [|a]; simpl;
    try discriminate; [reflexivity | apply IH].
Qed.

Lemma deref_update_other (h : heap) (a b : addr) (o : obj) :
  b <> a -> deref (update h a o) b = deref h b.
Proof.
  unfold deref. revert a b; induction h as [|y h IH]; intros [|a] [|b] H;
    simpl; try reflexivity; try congruence.
  apply IH. congruence.
Qed.

Lemma update_length (h : heap) (a : addr) (o : obj) :
  List.length (update h a o) = List.length h.
Proof.
  revert a; induction h as [|y h IH]; intros [|a]; simpl; auto.
Qed.

(** *** Frame lemmas *)

Lemma untouched_refl (h : heap) : segments_untouched h h.
Proof. intros b fields name H. exact H. Qed.

Lemma untouched_trans (h1 h2 h3 : heap) :
  segments_untouched h1 h2 -> segments_untouched h2 h3 ->
  segments_untouched h1 h3.
Proof. intros H12 H23 b fields name H. auto. Qed.

Lemma kept_refl (a : addr) (h : heap) : segments_kept a h h.
Proof.
  intros b fields name H. destruct (Nat.eqb b a); [eauto | exact H].
Qed.

Lemma kept_trans (a : addr) (h1 h2 h3 : heap) :
  segments_kept a h1 h2 -> segments_kept a h2 h3 -> segments_kept a h1 h3.
Proof.
  intros H12 H23 b fields name H. specialize (H12 _ _ _ H).
  destruct (Nat.eqb b a) eqn:E.
  - destruct H12 as [fields' H']. specialize (H23 _ _ _ H').
    now rewrite E in H23.
  - specialize (H23 _ _ _ H12). now rewrite E in H23.
Qed.

Lemma untouched_kept (a : addr) (h h' : heap) :
  segments_untouched h h' -> segments_kept a h h'.
Proof.
  intros Hu b fields name H. destruct (Nat.eqb b a); [eexists|]; eauto.
Qed.

Lemma untouching_ret {A} (x : A) : untouching (ret x).
Proof. intros h. apply untouched_refl. Qed.

Lemma untouching_throw {A} (e : error) : untouching (@throw heap A e).
Proof. intros h. apply untouched_refl. Qed.

Lemma untouching_bind {A B} (c : M heap A) (k : A -> M heap B) :
  untouching c -> (forall x, untouching (k x)) -> untouching (bind c k).
Proof.
  intros Hc Hk h. unfold bind. specialize (Hc h).
  destruct (c h) as [[x|e] h1]; simpl in *; [|exact Hc].
  eapply untouched_trans; [exact Hc | apply Hk].
Qed.

Lemma untouching_alloc (o : obj) : untouching (alloc o).
Proof. intros h b fields name H. simpl. now apply deref_alloc_old. Qed.

Lemma keeping_untouching (a : addr) {A} (c : M heap A) :
  untouching c -> keeping a c.
Proof. intros H h. apply untouched_kept, H. Qed.

Lemma keeping_ret (a : addr) {A} (x : A) : keeping a (ret x).
Proof. intros h. apply kept_refl. Qed.

Lemma keeping_bind (a : addr) {A B} (c : M heap A) (k : A -> M heap B) :
  keeping a c -> (forall x, keeping a (k x)) -> keeping a (bind c k).
Proof.
  intros Hc Hk h. unfold bind. specialize (Hc h).
  destruct (c h) as [[x|e] h1]; simpl in *; [|exact Hc].
  eapply kept_trans; [exact Hc | apply Hk].
Qed.

Lemma keeping_when (a : addr) (b : bool) (c : M heap unit) :
  keeping a c -> keeping a (when_ b c).
Proof. destruct b; simpl; [auto | intros _; apply keeping_ret]. Qed.

(** The constructors of views only allocate. *)
Lemma untouching_HL7Field_new (value : string) : untouching (HL7Field_new value).
Proof. apply untouching_alloc. Qed.

Lemma untouching_HL7Component_new (value : string) :
  untouching (HL7Component_new value).
Proof. apply untouching_alloc. Qed.

Lemma untouching_HL7Subcomponent_new (value : string) :
  untouching (HL7Subcomponent_new value).
Proof. apply untouching_alloc. Qed.

(** Reading through a proxy only allocates. *)
Lemma untouching_Segment_proxy_get (a : addr) (index : nat) :
  untouching (Segment_proxy_get a index).
Proof.
  intros h. unfold Segment_proxy_get.
  destruct (_ =? ""); [apply untouched_refl|].
  exact (@untouching_bind _ _ _ _ (untouching_HL7Field_new _)
           (fun x => untouching_ret _) h).
Qed.

Lemma untouching_HL7Field_proxy_get (a : addr) (index : nat) :
  untouching (HL7Field_proxy_get a index).
Proof.
  intros h. unfold HL7Field_proxy_get.
  destruct (at1 _ _); [|apply untouched_refl].
  exact (@untouching_bind _ _ _ _ (untouching_HL7Component_new _)
           (fun x => untouching_ret _) h).
Qed.

(** A write through a field view changes the view's own cell, and no
    Segment cell: the handler holds no reference to a segment. *)
Lemma untouching_HL7Field_proxy_set (a : addr) (index : nat) (value : string) :
  untouching (HL7Field_proxy_set a index value).
Proof.
  intros h b fields name H. unfold HL7Field_proxy_set.
  destruct (deref h a) as [[| v cs | |]|] eqn:E; simpl; try exact H.
  rewrite deref_update_other; [exact H|]. intros ->. congruence.
Qed.

Lemma untouching_HL7Component_proxy_set (a : addr) (index : nat)
  (value : string) : untouching (HL7Component_proxy_set a index value).
Proof.
  intros h b fields name H. unfold HL7Component_proxy_set.
  destruct (deref h a) as [[| | v cs |]|] eqn:E; simpl; try exact H.
  rewrite deref_update_other; [exact H|]. intros ->. congruence.
Qed.

Lemma untouching_HL7Field_index_get (v : option addr) (index : nat) :
  untouching (HL7Field_index_get v index).
Proof.
  destruct v; simpl;
    [apply untouching_HL7Field_proxy_get | apply untouching_throw].
Qed.

Lemma untouching_HL7Field_index_set (v : option addr) (index : nat)
  (value : string) : untouching (HL7Field_index_set v index value).
Proof.
  destruct v; simpl;
    [apply untouching_HL7Field_proxy_set | apply untouching_throw].
Qed.

Lemma untouching_HL7Component_index_set (v : option addr) (index : nat)
  (value : string) : untouching (HL7Component_index_set v index value).
Proof.
  destruct v; simpl;
    [apply untouching_HL7Component_proxy_set | apply untouching_throw].
Qed.

(** A write through the Segment proxy changes the fields of that segment. *)
Lemma keeping_Segment_proxy_set (a : addr) (index : nat) (value : string) :
  keeping a (Segment_proxy_set a index value).
Proof.
  intros h b fields name H. unfold Segment_proxy_set.
  destruct (Nat.eqb_spec b a) as [->|Hne].
  - rewrite H. simpl. eexists. eapply deref_update_same. eassumption.
  - destruct (deref h a) as [[fs nm | | |]|] eqn:E; simpl; try exact H.
    now rewrite deref_update_other.
Qed.

Create HintDb frame.

#[export] Hint Resolve keeping_ret keeping_when keeping_Segment_proxy_set
  : frame.
#[export] Hint Resolve untouching_Segment_proxy_get
  untouching_HL7Field_index_get untouching_HL7Field_index_set
  untouching_HL7Component_index_set : frame.

Ltac frame :=
  repeat first
    [ apply keeping_bind; [|intros ?]
    | apply keeping_when
    | apply keeping_Segment_proxy_set
    | apply keeping_ret
    | apply keeping_untouching; auto with frame ].

(** Both listings of the write branches touch one segment only. *)
Lemma keeping_write (segment : addr) (p : PathParts) (value : string) :
  keeping segment (write segment p value).
Proof.
  unfold write.
  destruct (absent (componentIndex p)); [frame|].
  destruct (absent (subcomponentIndex p)); frame.
Qed.

Lemma keeping_write_variant1 (segment : addr) (p : PathParts) (value : string) :
  keeping segment (write_variant1 segment p value).
Proof.
  unfold write_variant1.
  destruct (absent (componentIndex p)); [frame|].
  destruct (absent (subcomponentIndex p)); frame.
Qed.

End SegFacts.

(* ------------------------------------------------------------------ *)
(** ** The message: index, constructor and the path API *)

Module MsgFacts.
Import JS Regex Seg Msg Spec JSFacts RegexFacts PathFacts SegFacts.

Lemma prop_get_set_same {V} (o : list (string * V)) (k : string) (v : V) :
  prop_get (prop_set o k v) k = Some v.
Proof.
  induction o as [|[k' v'] o IH]; simpl.
  - now rewrite String.eqb_refl.
  - destruct (String.eqb_spec k' k) as [->|Hne]; simpl.
    + now rewrite String.eqb_refl.
    + apply String.eqb_neq in Hne. now rewrite Hne.
Qed.

Lemma prop_get_set_other {V} (o : list (string * V)) (k k' : string) (v : V) :
  k' <> k -> prop_get (prop_set o k v) k' = prop_get o k'.
Proof.
  intros Hne. induction o as [|[k0 v0] o IH]; simpl.
  - destruct (String.eqb_spec k k'); [congruence | reflexivity].
  - destruct (String.eqb_spec k0 k) as [->|H0]; simpl.
    + destruct (String.eqb_spec k k'); [congruence|].
      destruct (String.eqb_spec k k'); [congruence | reflexivity].
    + destruct (String.eqb_spec k0 k'); [reflexivity | exact IH].
Qed.

Lemma join_snoc (sep : string) (l : list string) (x : string) :
  join sep (l ++ [x]) =
  match l with
  | [] => x
  | _ :: _ => join sep l ++ sep ++ x
  end.
Proof.
  unfold join. induction l as [|y l IH]; [reflexivity|].
  destruct l as [|z l]; [reflexivity|].
  change (String.concat sep ((y :: z :: l) ++ [x]))
    with (y ++ sep ++ String.concat sep ((z :: l) ++ [x])).
  rewrite IH.
  change (String.concat sep (y :: z :: l))
    with (y ++ sep ++ String.concat sep (z :: l)).
  now rewrite !append_assoc.
Qed.

Lemma split_without_separator (d : ascii) (s : string) :
  all_chars (fun c => negb (Ascii.eqb c d)) s ->
  split d (s ++ String d "") = [s; ""].
Proof.
  unfold all_chars. induction s as [|c s IH]; simpl.
  - now rewrite Ascii.eqb_refl.
  - destruct (Ascii.eqb c d); simpl; [discriminate|].
    intros [= H]. now rewrite IH.
Qed.

Lemma name_char_not_bar (c : ascii) :
  name_char c = true -> negb (Ascii.eqb c "|") = true.
Proof.
  destruct (Ascii.eqb_spec c "|") as [->|]; [discriminate | reflexivity].
Qed.

(** The fields of the segment [set] synthesizes: its name and one empty field. *)
Lemma split_new_segment (path : string) (p : PathParts) :
  parsePath path = Some p ->
  split "|" (segmentName p ++ "|") = [segmentName p; ""].
Proof.
  intros Hp. apply split_without_separator.
  eapply all_chars_weaken; [apply name_char_not_bar|].
  eapply parsePath_name; eassumption.
Qed.

(** *** Resolving the segment of a path *)

Lemma is_segment_lt (h : heap) (a : addr) :
  is_segment h a -> a < List.length h.
Proof.
  intros (fields & name & H). apply nth_error_Some. unfold deref in H.
  congruence.
Qed.

Lemma resolve_found (push : bool) (m : Message) (name : string) (a : addr) :
  first_segment m name = Some a -> resolve push name m = (Ok a, m).
Proof.
  unfold first_segment, resolve.
  destruct (prop_get (parsedSegments m) name) as [[b|[|b l]]|]; simpl;
    try discriminate; now intros [= ->].
Qed.

Lemma resolve_new (push : bool) (m : Message) (name : string) :
  prop_get (parsedSegments m) name = None ->
  resolve push name m =
  (Ok (List.length (store m)),
   mkMessage
     (store m ++ [OSegment (split "|" (name ++ "|"))
                           (hd "" (split "|" (name ++ "|")))])%list
     (if push then (segments m ++ [List.length (store m)])%list
      else segments m)
     (prop_set (parsedSegments m) name (Single (List.length (store m))))).
Proof. unfold resolve. now intros ->. Qed.

Lemma kept_is_segment (a : addr) (h h' : heap) (b : addr) :
  segments_kept a h h' -> is_segment h b -> is_segment h' b.
Proof.
  intros Hk (fields & name & H). specialize (Hk _ _ _ H).
  destruct (Nat.eqb b a).
  - destruct Hk as [fields' H']. now exists fields', name.
  - now exists fields, name.
Qed.

Lemma kept_toString (a : addr) (h h' : heap) (b : addr) :
  segments_kept a h h' -> is_segment h b -> b <> a ->
  Segment_toString h' b = Segment_toString h b.
Proof.
  intros Hk (fields & name & H) Hne. specialize (Hk _ _ _ H).
  apply Nat.eqb_neq in Hne. rewrite Hne in Hk.
  unfold Segment_toString, Segment_getFields. now rewrite H, Hk.
Qed.

(** The current [set] creates a missing segment and appends it to the
    ordered list, whatever the rest of the call does. *)
Lemma set_creates_segment : creates_segment set.
Proof.
  intros m path v p Hdoc Hp Hnone m'. subst m'.
  unfold set. rewrite Hp. unfold bind. rewrite (resolve_new true _ _ Hnone).
  unfold on_store. cbn [store segments parsedSegments].
  set (a := List.length (store m)).
  set (h1 := (store m ++ _)%list).
  pose proof (keeping_write a p v h1) as Hk.
  destruct (write a p v h1) as [r h2]. cbn [snd] in Hk |- *.
  assert (Ha : deref h1 a = Some (OSegment [segmentName p; ""] (segmentName p))).
  { subst h1 a. rewrite (split_new_segment _ Hp). apply deref_alloc_new. }
  assert (Hold : forall b, In b (segments m) ->
                   Segment_toString h2 b = Segment_toString (store m) b).
  { intros b Hb. pose proof (doc_segments Hdoc) as Hs.
    rewrite Forall_forall in Hs. specialize (Hs _ Hb).
    pose proof (is_segment_lt Hs) as Hlt.
    rewrite (kept_toString (b := b) Hk).
    - destruct Hs as (fs & nm & Hd).
      unfold Segment_toString, Segment_getFields.
      subst h1. erewrite deref_alloc_old by eassumption. now rewrite Hd.
    - destruct Hs as (fs & nm & Hd). exists fs, nm.
      subst h1. now apply deref_alloc_old.
    - subst a. lia. }
  exists a. unfold getSegments. cbn [segments store parsedSegments].
  split; [reflexivity|]. split.
  { unfold first_segment. cbn [parsedSegments].
    now rewrite prop_get_set_same. }
  split.
  { specialize (Hk _ _ _ Ha). rewrite Nat.eqb_refl in Hk.
    destruct Hk as [fields' Hk]. unfold Segment_getName. now rewrite Hk. }
  unfold toString. cbn [store segments]. rewrite map_app. cbn [map].
  rewrite join_snoc.
  rewrite (map_ext_in _ _ _ Hold).
  destruct (segments m); reflexivity.
Qed.

(** The earlier [set] never changes the ordered segment list. *)
Lemma set_variant1_keeps_segment_list (m : Message) (path v : string) :
  segments (snd (set_variant1 path v m)) = segments m.
Proof.
  unfold set_variant1. destruct (parsePath path) as [p|]; [|reflexivity].
  unfold bind, resolve.
  destruct (prop_get (parsedSegments m) (segmentName p)) as [[a|[|a l]]|];
    cbn [Segment_new alloc]; try reflexivity;
    unfold on_store; cbn [store segments parsedSegments];
    match goal with
    | |- context [write_variant1 ?a ?p ?v ?h] =>
        destruct (write_variant1 a p v h)
    end; reflexivity.
Qed.

(** A field-only write (no component addressed, or component index 0)
    stores the value in the field slot of the resolved segment. *)
Lemma set_field_slot (m : Message) (path v : string) (p : PathParts)
  (a : addr) (fields : list string) (name : string) :
  parsePath path = Some p ->
  absent (componentIndex p) = true ->
  first_segment m (segmentName p) = Some a ->
  deref (store m) a = Some (OSegment fields name) ->
  set path v m =
  (Ok tt,
   mkMessage
     (update (store m) a
        (OSegment (array_set (pad_to (S (fieldIndex p)) fields)
                             (fieldIndex p) v) name))
     (segments m) (parsedSegments m)).
Proof.
  intros Hp Habs Hseg Hd. unfold set. rewrite Hp. unfold bind.
  rewrite (resolve_found true _ _ Hseg).
  unfold on_store, write. rewrite Habs.
  unfold Segment_proxy_set. now rewrite Hd.
Qed.

Lemma getField_after_set (h : heap) (a : addr) (fields : list string)
  (name : string) (i : nat) (v : string) (x : obj) :
  deref h a = Some x ->
  Segment_getField
    (update h a (OSegment (array_set (pad_to (S i) fields) i v) name)) a i = v.
Proof.
  intros Hd. unfold Segment_getField, Segment_getFields.
  erewrite deref_update_same by eassumption.
  rewrite array_set_same; [reflexivity|].
  pose proof (pad_to_length (S i) fields). lia.
Qed.

(** Write-then-read holds for the paths that address a whole field. *)
Lemma set_then_get_field (m : Message) (path v : string) (p : PathParts)
  (a : addr) :
  parsePath path = Some p ->
  componentIndex p = None ->
  first_segment m (segmentName p) = Some a ->
  is_segment (store m) a ->
  exists m', set path v m = (Ok tt, m') /\ get m' path = v.
Proof.
  intros Hp Hc Hseg (fields & name & Hd).
  eexists. split.
  - eapply set_field_slot; try eassumption. now rewrite Hc.
  - unfold get. rewrite Hp, Hc.
    unfold first_segment in *. cbn [parsedSegments store].
    destruct (prop_get (parsedSegments m) (segmentName p)) as [[b|l]|];
      try discriminate.
    + injection Hseg as ->. eapply getField_after_set; eassumption.
    + rewrite Hseg. eapply getField_after_set; eassumption.
Qed.

(** *** The constructor *)

Lemma mapM_Segment_new (lines : list string) :
  forall h0,
    mapM Segment_new lines h0 =
    (Ok (seq (List.length h0) (List.length lines)),
     (h0 ++ map (fun line => OSegment (split "|" line)
                                      (hd "" (split "|" line))) lines)%list).
Proof.
  induction lines as [|line lines IH]; intros h0; simpl.
  - unfold ret. now rewrite app_nil_r.
  - unfold bind, Segment_new, alloc. rewrite IH.
    rewrite length_app. simpl. rewrite Nat.add_1_r.
    unfold ret. now rewrite <- app_assoc.
Qed.

Lemma prop_get_In {V} (o : list (string * V)) (k : string) (v : V) :
  prop_get o k = Some v -> In (k, v) o.
Proof.
  induction o as [|[k' v'] o IH]; simpl; [discriminate|].
  destruct (String.eqb_spec k' k) as [->|Hne].
  - intros [= ->]. now left.
  - intros H. right. now apply IH.
Qed.

Lemma In_prop_set {V} (o : list (string * V)) (k : string) (v : V)
  (kv : string * V) :
  In kv (prop_set o k v) -> kv = (k, v) \/ In kv o.
Proof.
  induction o as [|[k' v'] o IH]; simpl.
  - intros [<-|[]]. now left.
  - destruct (String.eqb_spec k' k) as [->|Hne]; simpl.
    + intros [<-|H]; [now left | right; now right].
    + intros [<-|H]; [right; now left|].
      destruct (IH H) as [->|H']; [now left | right; now right].
Qed.

Lemma app_cons_not_nil_sym {A} (l : list A) (x : A) : (l ++ [x])%list <> [].
Proof. destruct l; discriminate. Qed.

(** What the grouping loop maintains: no group is empty, every member of
    a group satisfies [P], and every key is the name of a segment. *)
Lemma group_segments_inv (h : heap) (P : addr -> Prop) (K : string -> Prop)
  (segs : list addr) :
  forall parsed parsed',
    Forall P segs ->
    Forall (fun s => K (Segment_getName h s)) segs ->
    Forall (fun kv => K (fst kv) /\ snd kv <> [] /\ Forall P (snd kv)) parsed ->
    group_segments h segs parsed = Ok parsed' ->
    Forall (fun kv => K (fst kv) /\ snd kv <> [] /\ Forall P (snd kv)) parsed'.
Proof.
  induction segs as [|s segs IH]; intros parsed parsed' HP HK Hinv;
    cbn [group_segments].
  - now intros [= <-].
  - destruct (mem (Segment_getName h s) object_prototype_keys);
      [discriminate|].
    inversion HP as [|? ? Ps HP']; subst.
    inversion HK as [|? ? Ks HK']; subst.
    apply IH; try assumption.
    apply Forall_forall. intros kv Hin.
    apply In_prop_set in Hin as [->|Hin]; cbn [fst snd].
    + split; [exact Ks|]. split; [apply app_cons_not_nil_sym|].
      apply Forall_app. split; [|now constructor].
      destruct (prop_get parsed (Segment_getName h s)) as [g|] eqn:E;
        [|constructor].
      apply prop_get_In in E. rewrite Forall_forall in Hinv.
      now destruct (Hinv _ E) as (_ & _ & Hg).
    + rewrite Forall_forall in Hinv. now apply Hinv.
Qed.

(** The loop throws only on a name found on [Object.prototype]. *)
Lemma group_segments_ok (h : heap) (segs : list addr) :
  forall parsed,
    Forall (fun s => mem (Segment_getName h s) object_prototype_keys = false)
           segs ->
    exists parsed', group_segments h segs parsed = Ok parsed'.
Proof.
  induction segs as [|s segs IH]; intros parsed H; cbn [group_segments];
    [eauto|].
  inversion H as [|? ? Hs H']; subst. rewrite Hs. now apply IH.
Qed.

Lemma unwrap_groups_In (parsed : list (string * list addr)) (k : string)
  (d : segData) :
  In (k, d) (unwrap_groups parsed) ->
  exists g, In (k, g) parsed /\
    match d with
    | Single a => g = [a]
    | Multiple l => g = l /\ 2 <= List.length l
    end.
Proof.
  unfold unwrap_groups. intros H.
  apply in_flat_map in H as ([k' g] & Hin & H). simpl in H.
  destruct g as [|a [|b g]]; simpl in H.
  - contradiction.
  - destruct H as [[= <- <-]|[]]. now exists [a].
  - destruct H as [[= <- <-]|[]]. exists (a :: b :: g).
    split; [exact Hin|]. split; [reflexivity | simpl; lia].
Qed.

Lemma built_shape (rawHL7 : string) (m : Message) :
  HL7Message_new rawHL7 = Built m ->
  let lines := filter not_blank (split_lines rawHL7) in
  store m = map (fun line => OSegment (split "|" line) (hd "" (split "|" line)))
                lines /\
  segments m = seq 0 (List.length lines) /\
  exists groups,
    group_segments (store m) (segments m) [] = Ok groups /\
    parsedSegments m = unwrap_groups groups.
Proof.
  unfold HL7Message_new. rewrite mapM_Segment_new. cbn [app List.length].
  unfold parseSegmentsToObject.
  destruct (group_segments _ _ []) as [groups|e] eqn:G; [|discriminate].
  destruct (filter _ (map fst (unwrap_groups groups))); [|discriminate].
  intros [= <-]. cbn [store segments parsedSegments]. eauto.
Qed.

(** The constructor establishes the data-model invariant. *)
Lemma HL7Message_new_document (rawHL7 : string) (m : Message) :
  HL7Message_new rawHL7 = Built m -> document m.
Proof.
  intros Hb. destruct (built_shape _ Hb) as (Hstore & Hsegs & groups & G & Hparsed).
  assert (Hseg : Forall (is_segment (store m)) (segments m)).
  { rewrite Hstore, Hsegs. apply Forall_forall. intros a Ha.
    apply in_seq in Ha as [_ Ha]. simpl in Ha.
    destruct (nth_error (filter not_blank (split_lines rawHL7)) a) as [line|] eqn:E.
    - exists (split "|" line), (hd "" (split "|" line)).
      unfold deref. now rewrite nth_error_map, E.
    - apply nth_error_None in E. lia. }
  assert (Hinv : Forall (fun kv => True /\ snd kv <> [] /\
                          Forall (fun a => In a (segments m)) (snd kv)) groups).
  { eapply (@group_segments_inv (store m)
              (fun a => In a (segments m)) (fun _ => True));
      [ | | constructor | exact G].
    - now apply Forall_forall.
    - now apply Forall_forall. }
  rewrite Forall_forall in Hinv, Hseg.
  assert (Hidx : forall a, indexed m a -> In a (segments m)).
  { intros a (k & d & Hg & Hd). rewrite Hparsed in Hg.
    apply prop_get_In, unwrap_groups_In in Hg as (g & Hin & Hshape).
    destruct (Hinv _ Hin) as (_ & _ & Hall). cbn [snd] in Hall.
    rewrite Forall_forall in Hall. apply Hall.
    destruct d as [b|l]; [subst; now left | now destruct Hshape as [-> _]]. }
  constructor.
  - now apply Forall_forall.
  - intros a Ha. now apply Hseg, Hidx.
  - intros k Hk. rewrite Hparsed in Hk.
    apply prop_get_In, unwrap_groups_In in Hk as (g & _ & _ & Hlen).
    simpl in Hlen. lia.
  - exact Hidx.
Qed.

(** The current [set] maintains the data-model invariant, also when it
    ends in an exception. *)
Lemma set_document (m : Message) (path v : string) :
  document m -> document (snd (set path v m)).
Proof.
  intros Hdoc. unfold set.
  destruct (parsePath path) as [p|] eqn:Hp; [|exact Hdoc].
  unfold bind.
  destruct (prop_get (parsedSegments m) (segmentName p)) as [d|] eqn:Hget.
  - (* the segment is in the index *)
    assert (Hres : resolve true (segmentName p) m = (Throw TypeError, m) \/
                   exists a, resolve true (segmentName p) m = (Ok a, m)).
    { unfold resolve. rewrite Hget. destruct d as [a|[|a l]]; eauto. }
    destruct Hres as [->|[a ->]]; [exact Hdoc|].
    unfold on_store.
    pose proof (keeping_write a p v (store m)) as Hk.
    destruct (write a p v (store m)) as [r h2]. cbn [snd] in *.
    destruct Hdoc as [Hs Hi Ha Hl]. constructor; cbn [store segments parsedSegments].
    + eapply Forall_impl; [|exact Hs]. intros b.
      eapply kept_is_segment; exact Hk.
    + intros b Hb. eapply kept_is_segment; [exact Hk|]. now apply Hi.
    + exact Ha.
    + exact Hl.
  - (* the segment is created *)
    rewrite (resolve_new true _ _ Hget). unfold on_store.
    cbn [store segments parsedSegments].
    set (a := List.length (store m)).
    set (h1 := (store m ++ _)%list).
    pose proof (keeping_write a p v h1) as Hk.
    destruct (write a p v h1) as [r h2]. cbn [snd] in *.
    destruct Hdoc as [Hs Hi Ha Hl].
    assert (Hold : forall b, is_segment (store m) b -> is_segment h2 b).
    { intros b (fs & nm & Hd). eapply kept_is_segment; [exact Hk|].
      exists fs, nm. subst h1. now apply deref_alloc_old. }
    assert (Hnew : is_segment h2 a).
    { eapply kept_is_segment; [exact Hk|]. do 2 eexists.
      subst h1 a. apply deref_alloc_new. }
    assert (Hcase : forall b,
              indexed (mkMessage h2 (segments m ++ [a])
                         (prop_set (parsedSegments m) (segmentName p) (Single a))) b ->
              b = a \/ indexed m b).
    { intros b (k & d & Hg & Hd). cbn [parsedSegments] in Hg.
      destruct (String.eqb_spec k (segmentName p)) as [->|Hne].
      - rewrite prop_get_set_same in Hg. injection Hg as <-. now left.
      - rewrite prop_get_set_other in Hg by exact Hne. right. now exists k, d. }
    constructor; cbn [store segments parsedSegments].
    + apply Forall_app. split; [|now constructor].
      eapply Forall_impl; [|exact Hs]. exact Hold.
    + intros b Hb. destruct (Hcase _ Hb) as [->|Hb']; [exact Hnew|].
      now apply Hold, Hi.
    + intros k Hk'. destruct (String.eqb_spec k (segmentName p)) as [->|Hne].
      * rewrite prop_get_set_same in Hk'. discriminate.
      * rewrite prop_get_set_other in Hk' by exact Hne. now apply (Ha k).
    + intros b Hb. apply in_or_app.
      destruct (Hcase _ Hb) as [->|Hb']; [right; now left | left; now apply Hl].
Qed.

(** *** Parsing and serializing lines *)

Lemma segment_line_parts (line : string) :
  segment_line line = true ->
  not_blank line = true /\ no_newline line = true /\
  mem (line_name line) object_prototype_keys = false /\
  mem (line_name line) member_names = false.
Proof.
  unfold segment_line. intros H.
  apply andb_prop in H as [H H4]. apply andb_prop in H as [H H3].
  apply andb_prop in H as [H1 H2].
  apply negb_true_iff in H3, H4. auto.
Qed.

(** A raw text whose separators are LF or CR LF splits into its lines. *)
Lemma split_lines_raw_text (more : list (string * string)) :
  forall first,
    Forall (fun sl => In (fst sl) [String LF ""; CRLF]) more ->
    forallb no_newline (first :: map snd more) = true ->
    split_lines (raw_text first more) = first :: map snd more.
Proof.
  induction more as [|[sep line] more IH]; intros first Hsep Hlines.
  - simpl in *. apply andb_prop in Hlines as [Hf _].
    now apply split_lines_line.
  - inversion Hsep as [|? ? Hs Hsep']; subst.
    cbn [forallb map snd] in Hlines.
    apply andb_prop in Hlines as [Hf Hrest].
    cbn [raw_text map snd]. rewrite <- (IH line Hsep' Hrest).
    cbn [fst] in Hs. destruct Hs as [<-|[<-|[]]].
    + now apply split_lines_LF.
    + now apply split_lines_CRLF.
Qed.

Lemma filter_all {A} (f : A -> bool) (l : list A) :
  forallb f l = true -> filter f l = l.
Proof.
  induction l as [|x l IH]; simpl; [reflexivity|].
  intros H. apply andb_prop in H as [-> Hl]. now rewrite IH.
Qed.

Lemma filter_none {A} (f : A -> bool) (l : list A) :
  (forall x, In x l -> f x = false) -> filter f l = [].
Proof.
  induction l as [|x l IH]; simpl; [reflexivity|].
  intros H. rewrite (H x) by now left. apply IH. intros y Hy. apply H. now right.
Qed.

(** The segments the constructor allocates serialize to their lines. *)
Lemma toString_allocated (lines : list string) :
  forall h0 : heap,
    map (Segment_toString
           (h0 ++ map (fun line => OSegment (split "|" line)
                                            (hd "" (split "|" line))) lines)%list)
        (seq (List.length h0) (List.length lines)) = lines.
Proof.
  induction lines as [|line lines IH]; intros h0; [reflexivity|].
  cbn [map List.length seq]. f_equal.
  - unfold Segment_toString, Segment_getFields, deref.
    rewrite nth_error_app2 by lia. rewrite Nat.sub_diag. cbn [nth_error].
    apply join_split.
  - specialize (IH (h0 ++ [OSegment (split "|" line) (hd "" (split "|" line))])%list).
    rewrite length_app, Nat.add_1_r, <- app_assoc in IH. exact IH.
Qed.

Lemma getName_allocated (lines : list string) (a : addr) (line : string) :
  nth_error lines a = Some line ->
  Segment_getName
    (map (fun line => OSegment (split "|" line) (hd "" (split "|" line))) lines)
    a = line_name line.
Proof.
  intros H. unfold Segment_getName, deref. now rewrite nth_error_map, H.
Qed.

(** When no line bears a reserved name, the constructor returns an
    instance, and [toString] joins the lines it kept with CR LF. *)
Lemma HL7Message_new_lines (rawHL7 : string) :
  let lines := filter not_blank (split_lines rawHL7) in
  Forall (fun line => mem (line_name line) object_prototype_keys = false /\
                      mem (line_name line) member_names = false) lines ->
  exists m, HL7Message_new rawHL7 = Built m /\ toString m = join CRLF lines.
Proof.
  intros lines Hnames. subst lines.
  set (lines := filter not_blank (split_lines rawHL7)) in *.
  set (h := map (fun line => OSegment (split "|" line) (hd "" (split "|" line)))
                lines).
  set (segs := seq 0 (List.length lines)).
  rewrite Forall_forall in Hnames.
  assert (Hline : forall a, In a segs ->
            exists line, In line lines /\ Segment_getName h a = line_name line).
  { intros a Ha. apply in_seq in Ha as [_ Ha]. simpl in Ha.
    destruct (nth_error lines a) as [line|] eqn:E.
    - exists line. split; [eapply nth_error_In; eassumption|].
      now apply getName_allocated.
    - apply nth_error_None in E. lia. }
  destruct (@group_segments_ok h segs []) as [groups G].
  { apply Forall_forall. intros a Ha.
    destruct (Hline _ Ha) as (line & Hin & ->). now apply Hnames. }
  assert (Hinv : Forall (fun kv => mem (fst kv) member_names = false /\
                          snd kv <> [] /\ Forall (fun _ => True) (snd kv))
                        groups).
  { eapply (@group_segments_inv h (fun _ => True)
              (fun k => mem k member_names = false));
      [ | | constructor | exact G].
    - now apply Forall_forall.
    - apply Forall_forall. intros a Ha.
      destruct (Hline _ Ha) as (line & Hin & ->). now apply Hnames. }
  exists (mkMessage h segs (unwrap_groups groups)). split.
  - unfold HL7Message_new. fold lines. rewrite mapM_Segment_new.
    cbn [app List.length]. fold h segs.
    unfold parseSegmentsToObject. rewrite G.
    rewrite filter_none; [reflexivity|].
    intros k Hk. apply in_map_iff in Hk as ([k' d] & <- & Hin). cbn [fst].
    apply unwrap_groups_In in Hin as (g & Hin & _).
    rewrite Forall_forall in Hinv. now destruct (Hinv _ Hin).
  - unfold toString. cbn [store segments]. subst h segs.
    f_equal. exact (toString_allocated lines []).
Qed.

(** *** Reads that find nothing *)

Lemma getField_out_of_range (h : heap) (a : addr) (i : nat) :
  List.length (Segment_getFields h a) <= i -> Segment_getField h a i = "".
Proof.
  intros H. unfold Segment_getField.
  now rewrite (proj2 (nth_error_None _ _) H).
Qed.

Lemma getComponent_empty_field (h : heap) (a : addr) (fi ci : nat) :
  Segment_getField h a fi = "" -> Segment_getComponent h a fi ci = "".
Proof. unfold Segment_getComponent. now intros ->. Qed.

Lemma getSubcomponent_empty_component (h : heap) (a : addr) (fi ci si : nat) :
  Segment_getComponent h a fi ci = "" ->
  Segment_getSubcomponent h a fi ci si = "".
Proof. unfold Segment_getSubcomponent. now intros ->. Qed.

Lemma at1_out_of_range (arr : list string) (i : nat) :
  i = 0 \/ List.length arr < i -> at1 arr i = None.
Proof.
  intros [->|H]; [reflexivity|]. destruct i as [|k]; [reflexivity|].
  simpl. apply nth_error_None. lia.
Qed.

Lemma getComponent_out_of_range (h : heap) (a : addr) (fi ci : nat) :
  ci = 0 \/ List.length (split "^" (Segment_getField h a fi)) < ci ->
  Segment_getComponent h a fi ci = "".
Proof.
  intros H. unfold Segment_getComponent.
  destruct (_ =? ""); [reflexivity|]. now rewrite at1_out_of_range.
Qed.

Lemma getSubcomponent_out_of_range (h : heap) (a : addr) (fi ci si : nat) :
  si = 0 \/ List.length (split "&" (Segment_getComponent h a fi ci)) < si ->
  Segment_getSubcomponent h a fi ci si = "".
Proof.
  intros H. unfold Segment_getSubcomponent.
  destruct (_ =? ""); [reflexivity|]. now rewrite at1_out_of_range.
Qed.

End MsgFacts.

(* ------------------------------------------------------------------ *)
(** ** The validator *)

Module ValidatorFacts.
Import JS Msg Validator.

Lemma fold_left_collect {A B} (f : A -> list B) (l : list A) :
  forall acc,
    fold_left (fun acc x => (acc ++ f x)%list) l acc
    = (acc ++ flat_map f l)%list.
Proof.
  induction l as [|x l IH]; intros acc; simpl.
  - now rewrite app_nil_r.
  - rewrite IH. now rewrite app_assoc.
Qed.

(** The error list is the concatenation of what each rule pushes. *)
Lemma validate_errors (dp np : string -> bool) (rules : list ValidationRule)
  (msg : Message) :
  errors (validate dp np rules msg) = flat_map (check_rule dp np msg) rules.
Proof. unfold validate. cbn [errors]. now rewrite fold_left_collect. Qed.

End ValidatorFacts.

(* ------------------------------------------------------------------ *)
(** ** The properties of the specification, settled on the code *)

Module Properties.
Import JS Regex Seg Msg Spec.
Import JSFacts RegexFacts PathFacts SegFacts MsgFacts.

(** *** Segment creation by [set] *)

(** C1.  The earlier listing of [set] enters a newly created segment in
    the name index only: on the document built from ["PID|1"], after
    [set("NK1-2", "X")] the index knows NK1, while the ordered segment
    list and the serialized text are what they were; the index and the
    list no longer agree, and the property [creates_segment] fails for
    that listing.  The current listing pushes the segment, and the text
    ends with its line. *)
Theorem set_variant1_omits_new_segment :
  let m := built "PID|1" in
  let m1 := snd (set_variant1 "NK1-2" "X" m) in
  let m2 := snd (set "NK1-2" "X" m) in
  HL7Message_new "PID|1" = Built m /\
  hasSegment m1 "NK1" = true /\
  getSegments m1 = getSegments m /\
  toString m1 = "PID|1" /\
  toString m2 = "PID|1" ++ CRLF ++ "NK1||X" /\
  ~ document m1 /\
  ~ creates_segment set_variant1.
Proof.
  cbv zeta. conjuncts; try (vm_compute; reflexivity).
  { intros [_ _ _ Hlisted].
    assert (Hidx : indexed (snd (set_variant1 "NK1-2" "X" (built "PID|1"))) 1)
      by (exists "NK1", (Single 1); split; vm_compute; reflexivity).
    apply Hlisted in Hidx. vm_compute in Hidx.
    destruct Hidx as [Hidx|[]]. discriminate. }
  intros H.
  assert (Hdoc : document (built "PID|1"))
    by (apply (HL7Message_new_document "PID|1"); vm_compute; reflexivity).
  assert (Hp : parsePath "NK1-2" = Some (mkPath "NK1" 2 None None))
    by (vm_compute; reflexivity).
  destruct (H (built "PID|1") "NK1-2" "X" _ Hdoc Hp eq_refl)
    as (a & Hsegs & _).
  vm_compute in Hsegs. destruct a; discriminate.
Qed.

(** *** Writes through a field view *)

(** C2.  A write through a field view stays in the view.  On the segment
    parsed from ["PID|1|ABC"], after [segment[2][1] = "MODIFIED"] the
    view reads ["MODIFIED"], the segment's [getField(2)] still reads
    ["ABC"], and a view fetched afterwards holds the components
    [["ABC"]]: the two views do not share a list, and [write_propagates]
    fails. *)
Theorem field_view_write_not_propagated :
  let h0 := snd (Segment_new "PID|1|ABC" []) in
  let h1 := snd (Segment_proxy_get 0 2 h0) in
  let h2 := snd (HL7Field_proxy_set 1 1 "MODIFIED" h1) in
  let h3 := snd (Segment_proxy_get 0 2 h2) in
  Segment_proxy_get 0 2 h0 = (Ok (Some 1), h1) /\
  HL7Field_proxy_set 1 1 "MODIFIED" h1 = (Ok tt, h2) /\
  HL7Field_toString h2 1 = "MODIFIED" /\
  Segment_getField h2 0 2 = "ABC" /\
  Segment_proxy_get 0 2 h2 = (Ok (Some 2), h3) /\
  HL7Field_getComponents h3 1 = ["MODIFIED"] /\
  HL7Field_getComponents h3 2 = ["ABC"] /\
  ~ write_propagates.
Proof.
  cbv zeta. conjuncts; try (vm_compute; reflexivity).
  intros H.
  assert (Hseg : is_segment (snd (Segment_new "PID|1|ABC" [])) 0)
    by (do 2 eexists; vm_compute; reflexivity).
  specialize (H _ 0 2 1 "MODIFIED" 1 _ _ Hseg eq_refl (le_n 1) eq_refl).
  vm_compute in H. discriminate.
Qed.

(** *** Exceptions *)

(** C3.  [set] with a component or a subcomponent index on a field that
    is absent or empty throws: the field is set to [''], the indexed read
    of an empty field is [null], and the next step indexes into it.  This
    holds for both listings, so [never_raises] fails.  The constructor
    itself throws on a line whose name is a property of
    [Object.prototype]. *)
Theorem set_on_empty_field_raises :
  let m := built "PID|1" in
  HL7Message_new "PID|1" = Built m /\
  fst (set "PID-5.1" "X" m) = Throw TypeError /\
  fst (set "PID-5.1.1" "X" m) = Throw TypeError /\
  fst (set_variant1 "PID-5.1" "X" m) = Throw TypeError /\
  fst (set_variant1 "PID-5.1.1" "X" m) = Throw TypeError /\
  fst (set "NK1-2.1" "X" m) = Throw TypeError /\
  HL7Message_new "toString|1" = Raised TypeError /\
  ~ never_raises.
Proof.
  cbv zeta. conjuncts; try (vm_compute; reflexivity).
  intros H.
  destruct (H "PID|1" [CallSet "PID-5.1" "X"]) as (m & Hm & out & m' & Hrun).
  vm_compute in Hm. injection Hm as <-.
  vm_compute in Hrun. discriminate.
Qed.

(** *** Write-then-read *)

(** C5.  On the message of the test-suite, [set("PID-4.1", "SMITH")]
    returns normally and [get("PID-4.1")] afterwards is still ["DOE"]:
    the component write goes to a field view and is lost.  So
    [write_then_read] fails for both listings. *)
Theorem set_component_then_get :
  let m := built sampleHL7 in
  let m' := snd (set "PID-4.1" "SMITH" m) in
  HL7Message_new sampleHL7 = Built m /\
  well_formed_path "PID-4.1" /\
  get m "PID-4.1" = "DOE" /\
  fst (set "PID-4.1" "SMITH" m) = Ok tt /\
  get m' "PID-4.1" = "DOE" /\
  get (snd (set_variant1 "PID-4.1" "SMITH" m)) "PID-4.1" = "DOE" /\
  ~ write_then_read set /\
  ~ write_then_read set_variant1.
Proof.
  assert (Hwf : well_formed_path "PID-4.1").
  { apply parsePath_accepts. eexists. vm_compute. reflexivity. }
  assert (Hdoc : document (built sampleHL7))
    by (apply (HL7Message_new_document sampleHL7); vm_compute; reflexivity).
  cbv zeta. conjuncts; try (vm_compute; reflexivity); try exact Hwf.
  - intros H. destruct (H _ "PID-4.1" "SMITH" Hdoc Hwf) as (m' & Hset & Hget).
    vm_compute in Hset. injection Hset as <-.
    vm_compute in Hget. discriminate.
  - intros H. destruct (H _ "PID-4.1" "SMITH" Hdoc Hwf) as (m' & Hset & Hget).
    vm_compute in Hset. injection Hset as <-.
    vm_compute in Hget. discriminate.
Qed.

(** *** Line breaks *)

(** With a lone CR between the two lines the scenario as stated fails:
    no PID segment is found. *)
Lemma end_to_end_lone_CR_fails : ~ end_to_end (String CR "").
Proof.
  intros (m & Hm & Hpid & _). vm_compute in Hm. injection Hm as <-.
  vm_compute in Hpid. discriminate.
Qed.

(** C4, amended.  The constructor splits the raw text at LF and at CR LF;
    a lone CR is not a boundary and stays inside its line.  For the
    header and patient lines of the scenario joined by LF or by CR LF,
    the document has two segments, [get("PID-5.1")] is ["DOE"],
    [get("PID-5.2")] is ["JOHN"], the message type ["ADT^A01"] is read at
    ["MSH-8"] (fields are counted from the name at position 0, so
    ["MSH-9"] is ["1"]), and [hasSegment("OBX")] is false; joined by a
    lone CR they make one MSH segment. *)
Theorem end_to_end_line_breaks :
  (forall l rest, no_newline l = true ->
     split_lines (l ++ String LF rest) = l :: split_lines rest /\
     split_lines (l ++ CRLF ++ rest) = l :: split_lines rest /\
     (no_newline rest = true ->
      split_lines (l ++ String CR rest) = [l ++ String CR rest])) /\
  end_to_end_positional (String LF "") /\
  end_to_end_positional CRLF /\
  (let m := built (scenario (String CR "")) in
   HL7Message_new (scenario (String CR "")) = Built m /\
   List.length (getSegments m) = 1 /\
   hasSegment m "PID" = false).
Proof.
  conjuncts.
  - intros l rest Hl. conjuncts.
    + now apply split_lines_LF.
    + now apply split_lines_CRLF.
    + intros Hrest. now apply split_lines_CR.
  - exists (built (scenario (String LF ""))).
    conjuncts; vm_compute; reflexivity.
  - exists (built (scenario CRLF)).
    conjuncts; vm_compute; reflexivity.
  - cbv zeta. conjuncts; vm_compute; reflexivity.
Qed.

(** The general part at two concrete lines. *)
Lemma end_to_end_line_breaks_witness :
  no_newline "PID|1" = true /\ no_newline "OBX|2" = true /\
  split_lines ("PID|1" ++ String CR "OBX|2") = ["PID|1" ++ String CR "OBX|2"].
Proof.
  split; [reflexivity|]. split; [reflexivity|].
  exact (proj2 (proj2 (proj1 end_to_end_line_breaks "PID|1" "OBX|2" eq_refl))
           eq_refl).
Defined.

(** *** Round trip *)

(** With CR among the separators the round trip fails: ["AB|1" CR "CD|2"]
    is one segment and serializes with its CR. *)
Lemma round_trip_lone_CR_fails :
  ~ round_trips [String CR ""; String LF ""; CRLF].
Proof.
  intros H.
  destruct (H "AB|1" [(String CR "", "CD|2")]) as (m & Hm & Hs).
  - repeat constructor.
  - vm_compute. reflexivity.
  - vm_compute in Hm. injection Hm as <-. vm_compute in Hs. discriminate.
Qed.

(** C6, amended.  For a raw text made of segment lines (not blank, free of
    CR and LF, not named like a built-in property or a member of the
    instance) joined by LF or CR LF, the constructor returns a document
    and [toString] is the same lines, in order, joined by CR LF. *)
Theorem toString_round_trip (first : string) (more : list (string * string)) :
  Forall (fun sl => In (fst sl) [String LF ""; CRLF]) more ->
  forallb segment_line (first :: map snd more) = true ->
  exists m,
    HL7Message_new (raw_text first more) = Built m /\
    toString m = join CRLF (first :: map snd more).
Proof.
  intros Hsep Hlines.
  assert (Hall : Forall (fun l => segment_line l = true) (first :: map snd more))
    by (apply Forall_forall; now apply forallb_forall).
  assert (Hsplit : split_lines (raw_text first more) = first :: map snd more).
  { apply split_lines_raw_text; [exact Hsep|].
    apply forallb_forall. intros l Hl. rewrite Forall_forall in Hall.
    now destruct (segment_line_parts _ (Hall _ Hl)) as (_ & ? & _). }
  assert (Hkeep : filter not_blank (split_lines (raw_text first more))
                  = first :: map snd more).
  { rewrite Hsplit. apply filter_all.
    apply forallb_forall. intros l Hl. rewrite Forall_forall in Hall.
    now destruct (segment_line_parts _ (Hall _ Hl)) as (? & _). }
  rewrite <- Hkeep. apply HL7Message_new_lines. rewrite Hkeep.
  eapply Forall_impl; [|exact Hall].
  intros l Hl. now destruct (segment_line_parts _ Hl) as (_ & _ & ? & ?).
Qed.

(** The round trip on three lines joined by an LF and a CR LF. *)
Lemma toString_round_trip_witness :
  Forall (fun sl => In (fst sl) [String LF ""; CRLF])
         [(String LF "", pid_line); (CRLF, "OBX|1|NM")] /\
  forallb segment_line [msh_line; pid_line; "OBX|1|NM"] = true /\
  exists m,
    HL7Message_new
      (raw_text msh_line [(String LF "", pid_line); (CRLF, "OBX|1|NM")])
      = Built m /\
    toString m = join CRLF [msh_line; pid_line; "OBX|1|NM"].
Proof.
  assert (Hsep : Forall (fun sl => In (fst sl) [String LF ""; CRLF])
                   [(String LF "", pid_line); (CRLF, "OBX|1|NM")]).
  { constructor; [now left|]. constructor; [right; now left | constructor]. }
  assert (Hlines : forallb segment_line [msh_line; pid_line; "OBX|1|NM"] = true)
    by (vm_compute; reflexivity).
  split; [exact Hsep|]. split; [exact Hlines|].
  exact (@toString_round_trip msh_line
           [(String LF "", pid_line); (CRLF, "OBX|1|NM")] Hsep Hlines).
Defined.

(** *** Absent and empty fields *)

(** The indexed read of the empty field 2 is [null], not a view. *)
Lemma absent_vs_empty_fails : ~ absent_vs_empty.
Proof.
  intros [(view & h & Hget & _) _]. vm_compute in Hget. discriminate.
Qed.

(** C7, amended.  In the segment parsed from ["PID|1|"] field 2 is in the
    field list as the empty string and field 99 is not in the list; the
    indexed read gives [null] for both, as [getField] gives [''] for
    both. *)
Theorem empty_field_reads_as_absent :
  Segment_getFields pid_empty_field 0 = ["PID"; "1"; ""] /\
  Segment_proxy_get 0 2 pid_empty_field = (Ok None, pid_empty_field) /\
  Segment_proxy_get 0 99 pid_empty_field = (Ok None, pid_empty_field) /\
  Segment_getField pid_empty_field 0 2 = "" /\
  Segment_getField pid_empty_field 0 99 = "".
Proof. conjuncts; vm_compute; reflexivity. Qed.

(** *** Rejected and unresolved paths *)

(** C8.  A path outside the grammar makes [get] return [''] and [set]
    return at once, leaving the document as it was (both listings); a
    well-formed path whose segment is not found, or whose field, component
    or subcomponent index is out of range, makes [get] return ['']. *)
Theorem rejected_paths (m : Message) (path : string) :
  (~ well_formed_path path ->
   get m path = "" /\
   forall v, set path v m = (Ok tt, m) /\ set_variant1 path v m = (Ok tt, m))
  /\
  (well_formed_path path -> unresolved m path -> get m path = "").
Proof.
  split.
  - intros Hbad. apply parsePath_rejects in Hbad.
    unfold get, set, set_variant1. rewrite Hbad. auto.
  - intros _ (p & Hp & Hun). unfold get. rewrite Hp.
    destruct (first_segment m (segmentName p)) as [a|]; [|reflexivity].
    cbv zeta in Hun. destruct Hun as [Hf|Hc].
    + pose proof (getField_out_of_range _ _ Hf) as Hfield.
      destruct (componentIndex p) as [ci|]; [|exact Hfield].
      pose proof (getComponent_empty_field _ _ _ ci Hfield) as Hcomp.
      destruct (subcomponentIndex p) as [si|]; [|exact Hcomp].
      now apply getSubcomponent_empty_component.
    + destruct (componentIndex p) as [ci|]; [|contradiction].
      destruct Hc as [Hc|[Hc|Hs]].
      * assert (Hcomp : Segment_getComponent (store m) a (fieldIndex p) ci = "")
          by (apply getComponent_out_of_range; now left).
        destruct (subcomponentIndex p) as [si|]; [|exact Hcomp].
        now apply getSubcomponent_empty_component.
      * assert (Hcomp : Segment_getComponent (store m) a (fieldIndex p) ci = "")
          by (apply getComponent_out_of_range; now right).
        destruct (subcomponentIndex p) as [si|]; [|exact Hcomp].
        now apply getSubcomponent_empty_component.
      * destruct (subcomponentIndex p) as [si|]; [|contradiction].
        now apply getSubcomponent_out_of_range.
Qed.

(** A rejected path and an unresolved one on the document of ["PID|1"]. *)
Lemma rejected_paths_witness :
  let m := built "PID|1" in
  ~ well_formed_path "PID-" /\
  well_formed_path "PID-99.1" /\
  unresolved m "PID-99.1" /\
  get m "PID-" = "" /\
  set "PID-" "X" m = (Ok tt, m) /\
  get m "PID-99.1" = "".
Proof.
  cbv zeta.
  assert (Hbad : ~ well_formed_path "PID-")
    by (apply parsePath_rejects; vm_compute; reflexivity).
  assert (Hwf : well_formed_path "PID-99.1")
    by (apply parsePath_accepts; eexists; vm_compute; reflexivity).
  assert (Hun : unresolved (built "PID|1") "PID-99.1").
  { exists (mkPath "PID" 99 (Some 1) None). split; [vm_compute; reflexivity|].
    vm_compute. left. repeat constructor. }
  split; [exact Hbad|]. split; [exact Hwf|]. split; [exact Hun|].
  pose proof (rejected_paths (built "PID|1") "PID-") as [Hrej _].
  pose proof (rejected_paths (built "PID|1") "PID-99.1") as [_ Hunres].
  destruct (Hrej Hbad) as [Hget Hset].
  split; [exact Hget|]. split; [exact (proj1 (Hset "X"))|].
  exact (Hunres Hwf Hun).
Defined.

(** *** Index 0 *)

(** C10.  The grammar accepts 0 as a component or subcomponent index.
    For a path whose component index is 0, [get] returns [''] (also with a
    subcomponent index 0), and [set] takes the field-only branch: when the
    segment exists and the field is present, the whole field slot becomes
    the value and nothing else in the document changes. *)
Theorem component_index_zero :
  (parsePath "PID-5.0" = Some (mkPath "PID" 5 (Some 0) None) /\
   parsePath "PID-5.1.0" = Some (mkPath "PID" 5 (Some 1) (Some 0)) /\
   well_formed_path "PID-5.0" /\ well_formed_path "PID-5.1.0") /\
  forall m path p,
    parsePath path = Some p ->
    (subcomponentIndex p = Some 0 -> get m path = "") /\
    (componentIndex p = Some 0 ->
     get m path = "" /\
     forall v a fields name old,
       first_segment m (segmentName p) = Some a ->
       deref (store m) a = Some (OSegment fields name) ->
       nth_error fields (fieldIndex p) = Some old ->
       set path v m =
       (Ok tt,
        mkMessage
          (update (store m) a
             (OSegment (array_set fields (fieldIndex p) v) name))
          (segments m) (parsedSegments m)) /\
       Segment_getField (store (snd (set path v m))) a (fieldIndex p) = v).
Proof.
  split.
  - conjuncts; try (vm_compute; reflexivity);
      apply parsePath_accepts; eexists; vm_compute; reflexivity.
  - intros m path p Hp. split.
    + intros Hs. unfold get. rewrite Hp, Hs.
      destruct (first_segment m (segmentName p)) as [a|]; [|reflexivity].
      destruct (componentIndex p) as [ci|] eqn:Hc.
      * apply getSubcomponent_out_of_range. now left.
      * rewrite (parsePath_component_first _ Hp Hc) in Hs. discriminate.
    + intros Hc. split.
      * unfold get. rewrite Hp, Hc.
        destruct (first_segment m (segmentName p)) as [a|]; [|reflexivity].
        assert (Hcomp : Segment_getComponent (store m) a (fieldIndex p) 0 = "")
          by (apply getComponent_out_of_range; now left).
        destruct (subcomponentIndex p) as [si|]; [|exact Hcomp].
        now apply getSubcomponent_empty_component.
      * intros v a fields name old Hseg Hd Hnth.
        assert (Hlt : fieldIndex p < List.length fields)
          by (apply nth_error_Some; congruence).
        assert (Hset : set path v m =
                  (Ok tt,
                   mkMessage
                     (update (store m) a
                        (OSegment (array_set fields (fieldIndex p) v) name))
                     (segments m) (parsedSegments m))).
        { erewrite set_field_slot; try eassumption; [|now rewrite Hc].
          now rewrite pad_to_inside by lia. }
        split; [exact Hset|]. rewrite Hset. cbn [snd store].
        unfold Segment_getField, Segment_getFields.
        erewrite deref_update_same by eassumption.
        rewrite array_set_same by exact Hlt. reflexivity.
Qed.

(** ["PID-4.0"] on the message of the test-suite. *)
Lemma component_index_zero_witness :
  let m := built sampleHL7 in
  parsePath "PID-4.0" = Some (mkPath "PID" 4 (Some 0) None) /\
  first_segment m "PID" = Some 1 /\
  get m "PID-4" = "DOE^JOHN^M" /\
  get m "PID-4.0" = "" /\
  get (snd (set "PID-4.0" "SMITH" m)) "PID-4" = "SMITH".
Proof.
  cbv zeta.
  assert (Hp : parsePath "PID-4.0" = Some (mkPath "PID" 4 (Some 0) None))
    by (vm_compute; reflexivity).
  assert (Hseg : first_segment (built sampleHL7) "PID" = Some 1)
    by (vm_compute; reflexivity).
  split; [exact Hp|]. split; [exact Hseg|]. split; [vm_compute; reflexivity|].
  destruct (proj2 (proj2 component_index_zero (built sampleHL7) "PID-4.0" _ Hp)
              eq_refl) as [Hget Hset].
  split; [exact Hget|].
  destruct (Hset "SMITH" 1
              (Segment_getFields (store (built sampleHL7)) 1) "PID" "DOE^JOHN^M"
              Hseg) as [Hm _]; [vm_compute; reflexivity..|].
  rewrite Hm. vm_compute. reflexivity.
Defined.

End Properties.

(* ------------------------------------------------------------------ *)
(** ** The validator's short circuit *)

Module ValidatorProperties.
Import JS Msg Validator ValidatorFacts.

(** C9.  A rule with [required: true] whose path reads as empty or as
    white space pushes exactly one error, "The required field is
    missing.", whatever else the rule sets; the rules before and after it
    contribute as they do on their own; and [isValid] is true exactly when
    the error list is empty. *)
Theorem required_rule_short_circuits (Date_parse_isNaN Number_isNaN : string -> bool)
  (msg : Message) (before after : list ValidationRule) (rule : ValidationRule) :
  required rule = Some true ->
  trim (get msg (path rule)) = "" ->
  let validate := validate Date_parse_isNaN Number_isNaN in
  check_rule Date_parse_isNaN Number_isNaN msg rule
    = [mkError (path rule) "The required field is missing."] /\
  errors (validate (before ++ rule :: after)%list msg)
    = (errors (validate before msg)
         ++ mkError (path rule) "The required field is missing."
         :: errors (validate after msg))%list /\
  (forall rules,
      isValid (validate rules msg) = true <-> errors (validate rules msg) = []).
Proof.
  intros Hreq Hblank validate_.
  assert (Hcheck : check_rule Date_parse_isNaN Number_isNaN msg rule
                   = [mkError (path rule) "The required field is missing."]).
  { unfold check_rule, required_missing. rewrite Hreq, Hblank.
    cbn [String.eqb]. now rewrite orb_true_r. }
  split; [exact Hcheck|]. split.
  - subst validate_. rewrite !validate_errors, flat_map_app.
    cbn [flat_map]. now rewrite Hcheck.
  - intros rules. subst validate_. unfold validate. cbn [isValid errors].
    destruct (fold_left _ rules []); simpl; split; congruence.
Qed.

(** A required rule on a missing field that also sets a type, a length
    and allowed values. *)
Lemma required_rule_short_circuits_witness :
  let rule := mkRule "MSH-99" (Some true) (Some NM) (Some 3) (Some ["A"]) None in
  let msg := Spec.built Spec.sampleHL7 in
  required rule = Some true /\
  trim (get msg (path rule)) = "" /\
  errors (validate (fun _ => true) (fun _ => true) [rule] msg)
    = [mkError "MSH-99" "The required field is missing."].
Proof.
  cbv zeta. split; [reflexivity|]. split; [vm_compute; reflexivity|].
  exact (proj1 (proj2
    (@required_rule_short_circuits (fun _ => true) (fun _ => true)
       (Spec.built Spec.sampleHL7) [] []
       (mkRule "MSH-99" (Some true) (Some NM) (Some 3) (Some ["A"]) None)
       eq_refl ltac:(vm_compute; reflexivity)))).
Defined.

End ValidatorProperties.

(* ------------------------------------------------------------------ *)
(** ** Segments and views: reads, writes and their invariants *)

Module ViewProperties.
Import JS Seg Msg Spec SegViews.
Import JSFacts SegFacts MsgFacts.





(** *** One step of each proxy read *)

Lemma Segment_proxy_get_null (h : heap) (a : addr) (f : nat) :
  Segment_getField h a f = "" -> Segment_proxy_get a f h = (Ok None, h).
Proof. unfold Segment_proxy_get. now intros ->. Qed.

Lemma Segment_proxy_get_view (h : heap) (a : addr) (f : nat) :
  Segment_getField h a f <> "" ->
  Segment_proxy_get a f h =
  (Ok (Some (List.length h)),
   (h ++ [OField (Segment_getField h a f)
                 (split "^" (Segment_getField h a f))])%list).
Proof.
  intros H. unfold Segment_proxy_get. apply String.eqb_neq in H. now rewrite H.
Qed.

Lemma HL7Field_proxy_get_null (h : heap) (v : addr) (value : string)
  (components : list string) (c : nat) :
  deref h v = Some (OField value components) ->
  at1 components c = None ->
  HL7Field_proxy_get v c h = (Ok None, h).
Proof.
  intros Hd Hc. unfold HL7Field_proxy_get, HL7Field_getComponents.
  now rewrite Hd, Hc.
Qed.

Lemma HL7Field_proxy_get_view (h : heap) (v : addr) (value : string)
  (components : list string) (c : nat) (component : string) :
  deref h v = Some (OField value components) ->
  at1 components c = Some component ->
  HL7Field_proxy_get v c h =
  (Ok (Some (List.length h)),
   (h ++ [OComponent component (split "&" component)])%list).
Proof.
  intros Hd Hc. unfold HL7Field_proxy_get, HL7Field_getComponents.
  now rewrite Hd, Hc.
Qed.

Lemma HL7Component_proxy_get_null (h : heap) (v : addr) (value : string)
  (subcomponents : list string) (s : nat) :
  deref h v = Some (OComponent value subcomponents) ->
  at1 subcomponents s = None ->
  HL7Component_proxy_get v s h = (Ok None, h).
Proof.
  intros Hd Hs. unfold HL7Component_proxy_get, HL7Component_getSubcomponents.
  now rewrite Hd, Hs.
Qed.

Lemma HL7Component_proxy_get_view (h : heap) (v : addr) (value : string)
  (subcomponents : list string) (s : nat) (subcomponent : string) :
  deref h v = Some (OComponent value subcomponents) ->
  at1 subcomponents s = Some subcomponent ->
  HL7Component_proxy_get v s h =
  (Ok (Some (List.length h)), (h ++ [OSubcomponent subcomponent])%list).
Proof.
  intros Hd Hs. unfold HL7Component_proxy_get, HL7Component_getSubcomponents.
  now rewrite Hd, Hs.
Qed.

(** X1.  Parsing a line into a Segment and serializing it gives the line
    back, whatever the line is; the name is the text before the first
    field separator and equals [getField(0)]. *)
Theorem Segment_round_trip (line : string) (h : heap) :
  let a := List.length h in
  let h' := snd (Segment_new line h) in
  fst (Segment_new line h) = Ok a /\
  Segment_toString h' a = line /\
  Segment_getName h' a = line_name line /\
  Segment_getName h' a = Segment_getField h' a 0.
Proof.
  cbv zeta. unfold Segment_new, alloc. cbn [fst snd].
  unfold Segment_toString, Segment_getName, Segment_getField, Segment_getFields.
  rewrite deref_alloc_new. conjuncts; try reflexivity.
  - apply join_split.
  - destruct (split "|" line) eqn:E; [now apply split_not_nil in E|].
    reflexivity.
Qed.








(** X5.  The bracket reads agree with the string accessors of the
    Segment: [segment[f]?.toString()], [segment[f]?.[c]?.toString()] and
    [segment[f]?.[c]?.[s]?.toString()] never throw, and each is either
    [undefined] or the value of [getField(f)], [getComponent(f, c)],
    [getSubcomponent(f, c, s)], which is [''] when the bracket read is
    [undefined].  The field read is [undefined] exactly when [getField]
    is ['']. *)
Theorem bracket_reads_agree (h : heap) (a : addr) (f c s : nat) :
  (exists x h', bracket_field a f h = (Ok x, h') /\
     or_empty x = Segment_getField h a f /\
     (x = None <-> Segment_getField h a f = "")) /\
  (exists x h', bracket_component a f c h = (Ok x, h') /\
     or_empty x = Segment_getComponent h a f c) /\
  (exists x h', bracket_subcomponent a f c s h = (Ok x, h') /\
     or_empty x = Segment_getSubcomponent h a f c s).
Proof.
  unfold bracket_field, bracket_component, bracket_subcomponent, bind,
    Segment_getSubcomponent, Segment_getComponent.
  destruct (String.eqb_spec (Segment_getField h a f) "") as [E|E].
  - rewrite (Segment_proxy_get_null _ _ _ E). unfold ret.
    split; [|split]; exists None, h; (split; [reflexivity|]);
      try rewrite E; try reflexivity.
    split; [reflexivity | tauto].
  - rewrite (Segment_proxy_get_view _ _ _ E).
    set (fv := Segment_getField h a f) in *.
    set (h1 := (h ++ [OField fv (split "^" fv)])%list).
    assert (Hf : deref h1 (List.length h) = Some (OField fv (split "^" fv)))
      by apply deref_alloc_new.
    conjuncts.
    + do 2 eexists. split; [reflexivity|].
      unfold HL7Field_toString. rewrite Hf.
      split; [reflexivity|]. split; [discriminate | congruence].
    + destruct (at1 (split "^" fv) c) as [comp|] eqn:Ec.
      * rewrite (@HL7Field_proxy_get_view _ _ _ _ _ _ Hf Ec).
        do 2 eexists. split; [reflexivity|].
        unfold HL7Component_toString. now rewrite deref_alloc_new.
      * rewrite (@HL7Field_proxy_get_null _ _ _ _ _ Hf Ec).
        do 2 eexists. split; reflexivity.
    + destruct (at1 (split "^" fv) c) as [comp|] eqn:Ec.
      * rewrite (@HL7Field_proxy_get_view _ _ _ _ _ _ Hf Ec).
        set (h2 := (h1 ++ [OComponent comp (split "&" comp)])%list).
        assert (Hc : deref h2 (List.length h1)
                     = Some (OComponent comp (split "&" comp)))
          by apply deref_alloc_new.
        cbn [or_empty].
        destruct (at1 (split "&" comp) s) as [sub|] eqn:Es.
        -- rewrite (@HL7Component_proxy_get_view _ _ _ _ _ _ Hc Es).
           do 2 eexists. split; [reflexivity|].
           unfold HL7Subcomponent_toString. rewrite deref_alloc_new.
           cbn [or_empty]. now destruct (comp =? "") eqn:Ecomp;
             [apply String.eqb_eq in Ecomp; subst comp;
              destruct s as [|[|s]]; cbn in Es;
              [discriminate | injection Es as <-; reflexivity
              | rewrite nth_error_nil in Es; discriminate]
             | reflexivity].
        -- rewrite (@HL7Component_proxy_get_null _ _ _ _ _ Hc Es).
           do 2 eexists. split; [reflexivity|].
           now destruct (comp =? "").
      * rewrite (@HL7Field_proxy_get_null _ _ _ _ _ Hf Ec).
        do 2 eexists. split; reflexivity.
Qed.

(** X6.  A write through a field view or a component view changes the
    view's own cell and nothing of any Segment: for every Segment of the
    heap the field list, and so [getField] and [toString], are what they
    were. *)
Theorem view_writes_leave_segments (h : heap) (view : addr) (i : nat)
  (v : string) (b : addr) :
  is_segment h b ->
  let h1 := snd (HL7Field_proxy_set view i v h) in
  let h2 := snd (HL7Component_proxy_set view i v h) in
  Segment_getFields h1 b = Segment_getFields h b /\
  Segment_toString h1 b = Segment_toString h b /\
  Segment_getFields h2 b = Segment_getFields h b /\
  Segment_toString h2 b = Segment_toString h b.
Proof.
  intros (fields & name & Hd). cbv zeta.
  pose proof (untouching_HL7Field_proxy_set view i v h) as H1.
  pose proof (untouching_HL7Component_proxy_set view i v h) as H2.
  unfold segments_untouched in H1, H2.
  specialize (H1 b fields name Hd). specialize (H2 b fields name Hd).
  unfold Segment_toString, Segment_getFields. now rewrite H1, H2, Hd.
Qed.

Lemma view_writes_leave_segments_witness :
  let h0 := snd (Segment_new "PID|1|ABC" []) in
  let h1 := snd (Segment_proxy_get 0 2 h0) in
  is_segment h1 0 /\
  Segment_toString (snd (HL7Field_proxy_set 1 1 "MODIFIED" h1)) 0 = "PID|1|ABC".
Proof.
  cbv zeta.
  assert (Hseg : is_segment (snd (Segment_proxy_get 0 2
                                    (snd (Segment_new "PID|1|ABC" [])))) 0)
    by (do 2 eexists; reflexivity).
  split; [exact Hseg|].
  exact (proj1 (proj2 (@view_writes_leave_segments _ 1 1 "MODIFIED" 0 Hseg))).
Defined.

End ViewProperties.

(* ------------------------------------------------------------------ *)
(** ** The document: grouping, serialization and re-parsing *)

Module DocumentProperties.
Import JS Seg Msg Spec SegViews MsgAccess.
Import JSFacts SegFacts MsgFacts.

(** The grouping loop files each segment under its name, in order. *)
Lemma group_segments_groups (h : heap) (segs : list addr) :
  forall parsed parsed',
    group_segments h segs parsed = Ok parsed' ->
    forall name,
      group_of parsed' name
      = (group_of parsed name
           ++ filter (fun a => Segment_getName h a =? name) segs)%list.
Proof.
  induction segs as [|s segs IH]; intros parsed parsed' H name;
    cbn [group_segments] in H.
  - injection H as <-. simpl. now rewrite app_nil_r.
  - destruct (mem (Segment_getName h s) object_prototype_keys);
      [discriminate|].
    rewrite (IH _ _ H name). cbn [filter]. unfold group_of at 1.
    destruct (String.eqb_spec (Segment_getName h s) name) as [<-|Hne].
    + rewrite prop_get_set_same. fold (group_of parsed (Segment_getName h s)).
      now rewrite <- app_assoc.
    + rewrite prop_get_set_other by congruence. reflexivity.
Qed.

Lemma group_segments_names (h : heap) (segs : list addr) :
  forall parsed parsed',
    group_segments h segs parsed = Ok parsed' ->
    Forall (fun s => mem (Segment_getName h s) object_prototype_keys = false)
           segs.
Proof.
  induction segs as [|s segs IH]; intros parsed parsed' H;
    cbn [group_segments] in H; [constructor|].
  destruct (mem (Segment_getName h s) object_prototype_keys) eqn:E;
    [discriminate|].
  constructor; [exact E | eapply IH; eassumption].
Qed.

Lemma prop_get_unwrap (parsed : list (string * list addr)) (k : string) :
  Forall (fun kv => snd kv <> []) parsed ->
  prop_get (unwrap_groups parsed) k =
  match prop_get parsed k with
  | Some [a] => Some (Single a)
  | Some (a :: b :: l) => Some (Multiple (a :: b :: l))
  | _ => None
  end.
Proof.
  induction parsed as [|[k' g] parsed IH]; intros Hne; [reflexivity|].
  inversion Hne as [|? ? Hg Hne']; subst. cbn [snd] in Hg.
  unfold unwrap_groups in *. cbn [flat_map fst snd prop_get].
  destruct g as [|a [|b g]]; [congruence| |]; cbn [app prop_get];
    (destruct (k' =? k); [reflexivity | now apply IH]).
Qed.

(** The index of a built document, read back as groups. *)
Lemma built_index (rawHL7 : string) (m : Message) (name : string) :
  HL7Message_new rawHL7 = Built m ->
  prop_get (parsedSegments m) name =
  match named m name with
  | [] => None
  | [a] => Some (Single a)
  | l => Some (Multiple l)
  end /\
  (mem name object_prototype_keys = true -> named m name = []).
Proof.
  intros Hb.
  destruct (built_shape _ Hb) as (_ & _ & groups & G & Hparsed).
  pose proof (group_segments_groups _ _ _ G name) as Hgroup.
  cbn [group_of prop_get app] in Hgroup.
  change (group_of [] name) with (@nil addr) in Hgroup. cbn [app] in Hgroup.
  fold (named m name) in Hgroup.
  assert (Hinv : Forall (fun kv => True /\ snd kv <> [] /\
                          Forall (fun _ => True) (snd kv)) groups).
  { eapply (@group_segments_inv (store m) (fun _ => True) (fun _ => True));
      [ | | constructor | exact G]; now apply Forall_forall. }
  assert (Hne : Forall (fun kv => snd kv <> []) groups).
  { eapply Forall_impl; [|exact Hinv]. now intros kv (_ & ? & _). }
  split.
  - rewrite Hparsed, (prop_get_unwrap _ Hne), <- Hgroup. unfold group_of.
    destruct (prop_get groups name) as [g|] eqn:E; [|reflexivity].
    apply prop_get_In in E. rewrite Forall_forall in Hne.
    specialize (Hne _ E). cbn [snd] in Hne.
    destruct g as [|a [|b g]]; [congruence | reflexivity..].
  - intros Hproto.
    pose proof (group_segments_names _ _ _ G) as Hnames.
    rewrite Forall_forall in Hnames.
    unfold named. apply filter_none. intros a Ha.
    specialize (Hnames _ Ha).
    destruct (String.eqb_spec (Segment_getName (store m) a) name) as [E|];
      [|reflexivity].
    rewrite E in Hnames. congruence.
Qed.

(** X7.  In a document built by the constructor, [getAllSegments(name)]
    is the list of the segments with that name in document order; it is
    empty when there is none, except for a name found on
    [Object.prototype], for which the inherited value comes back in a
    one-element array. *)
Theorem getAllSegments_groups (rawHL7 : string) (m : Message) (name : string) :
  HL7Message_new rawHL7 = Built m ->
  getAllSegments m name =
  if mem name object_prototype_keys then [Inherited name]
  else map Seg (named m name).
Proof.
  intros Hb. destruct (@built_index _ _ name Hb) as [Hidx Hproto].
  unfold getAllSegments. rewrite Hidx.
  destruct (mem name object_prototype_keys) eqn:E.
  - now rewrite (Hproto eq_refl).
  - now destruct (named m name) as [|a [|b l]].
Qed.

Lemma getAllSegments_groups_witness :
  let m := built sampleHL7 in
  HL7Message_new sampleHL7 = Built m /\
  getAllSegments m "OBX" = [Seg 3; Seg 4] /\
  getAllSegments m "MSH" = [Seg 0] /\
  getAllSegments m "NK1" = [].
Proof.
  cbv zeta.
  assert (Hb : HL7Message_new sampleHL7 = Built (built sampleHL7))
    by (vm_compute; reflexivity).
  split; [exact Hb|].
  rewrite !(fun name => @getAllSegments_groups sampleHL7 _ name Hb).
  conjuncts; vm_compute; reflexivity.
Defined.

(** X8.  In a built document the path API and [getSegment] resolve a name
    to the first segment with that name in document order, and
    [hasSegment(name)] tells whether there is one, for every name that is
    not on [Object.prototype]. *)
Theorem first_segment_in_order (rawHL7 : string) (m : Message) (name : string) :
  HL7Message_new rawHL7 = Built m ->
  first_segment m name = hd_error (named m name) /\
  (mem name object_prototype_keys = false ->
   getSegment m name = option_map Seg (hd_error (named m name)) /\
   (hasSegment m name = true <-> named m name <> [])).
Proof.
  intros Hb. destruct (@built_index _ _ name Hb) as [Hidx Hproto].
  split.
  - unfold first_segment. rewrite Hidx.
    now destruct (named m name) as [|a [|b l]].
  - intros Hn. split.
    + unfold getSegment. rewrite Hidx, Hn.
      now destruct (named m name) as [|a [|b l]].
    + unfold hasSegment. rewrite Hn, orb_false_r.
      assert (Hmem : mem name (map fst (parsedSegments m)) = true
                     <-> prop_get (parsedSegments m) name <> None).
      { unfold mem. generalize (parsedSegments m) as o.
        induction o as [|[k d] o IH]; simpl; [split; congruence|].
        rewrite String.eqb_sym.
        destruct (k =? name); simpl; [split; congruence | exact IH]. }
      rewrite Hmem, Hidx.
      destruct (named m name) as [|a [|b l]]; split; congruence.
Qed.

Lemma first_segment_in_order_witness :
  let m := built sampleHL7 in
  HL7Message_new sampleHL7 = Built m /\
  first_segment m "OBX" = Some 3 /\
  get m "OBX-1" = "1".
Proof.
  cbv zeta.
  assert (Hb : HL7Message_new sampleHL7 = Built (built sampleHL7))
    by (vm_compute; reflexivity).
  split; [exact Hb|]. split; [|vm_compute; reflexivity].
  rewrite (proj1 (@first_segment_in_order sampleHL7 _ "OBX" Hb)).
  vm_compute. reflexivity.
Defined.

(** *** What the constructor keeps *)

(** Every piece [split_lines] produces is made of characters of the text,
    and holds no LF. *)
Lemma split_lines_pieces (Q : ascii -> bool) (n : nat) :
  forall s, String.length s <= n ->
    all_chars Q s -> Forall (all_chars Q) (split_lines s).
Proof.
  unfold all_chars.
  induction n as [|n IH]; intros [|c s] Hlen Hall; simpl in Hlen;
    try lia; try (repeat constructor).
  cbn [Regex.run_length String.length] in Hall.
  destruct (Q c) eqn:Qc; [|discriminate]. injection Hall as Hall.
  assert (Hs : Forall (fun l => Regex.run_length Q l = String.length l)
                      (split_lines s)) by (apply IH; [lia | exact Hall]).
  assert (Hpre : Forall (fun l => Regex.run_length Q l = String.length l)
                        (prepend c (split_lines s))).
  { destruct (split_lines s) as [|l ls]; cbn [prepend].
    - repeat constructor. simpl. now rewrite Qc.
    - inversion Hs as [|? ? Hl Hls]; subst. constructor; [|exact Hls].
      simpl. now rewrite Qc, Hl. }
  cbn [split_lines].
  destruct (Ascii.eqb c LF); [constructor; [reflexivity | exact Hs]|].
  destruct (Ascii.eqb c CR); [|exact Hpre].
  destruct s as [|c' s']; [exact Hpre|].
  destruct (Ascii.eqb c' LF); [|exact Hpre].
  constructor; [reflexivity|].
  cbn [Regex.run_length String.length] in Hall.
  destruct (Q c'); [|discriminate]. injection Hall as Hall.
  apply IH; [simpl in Hlen; lia | exact Hall].
Qed.

Lemma split_lines_no_LF (n : nat) :
  forall s, String.length s <= n -> Forall (fun l => no_LF l = true) (split_lines s).
Proof.
  induction n as [|n IH]; intros [|c s] Hlen; simpl in Hlen;
    try lia; try (repeat constructor).
  assert (Hs : Forall (fun l => no_LF l = true) (split_lines s))
    by (apply IH; lia).
  cbn [split_lines].
  destruct (Ascii.eqb c LF) eqn:E; [constructor; [reflexivity | exact Hs]|].
  assert (Hpre : Forall (fun l => no_LF l = true) (prepend c (split_lines s))).
  { destruct (split_lines s) as [|l ls]; cbn [prepend].
    - repeat constructor. unfold no_LF. simpl. now rewrite E.
    - inversion Hs as [|? ? Hl Hls]; subst. constructor; [|exact Hls].
      unfold no_LF in *. simpl. now rewrite E, Hl. }
  destruct (Ascii.eqb c CR); [|exact Hpre].
  destruct s as [|c' s']; [exact Hpre|].
  destruct (Ascii.eqb c' LF); [|exact Hpre].
  constructor; [reflexivity|]. apply IH. simpl in Hlen. lia.
Qed.

(** A line without LF, followed by CR LF, is one piece, also when it
    holds or ends in a CR. *)
Lemma split_lines_no_LF_CRLF (l rest : string) :
  no_LF l = true ->
  split_lines (l ++ CRLF ++ rest) = l :: split_lines rest.
Proof.
  change (CRLF ++ rest) with (String CR (String LF rest)).
  unfold no_LF. induction l as [|c l IH]; intros Hl.
  - reflexivity.
  - simpl in Hl. apply andb_prop in Hl as [Hc Hl].
    apply negb_true_iff in Hc.
    cbn [append split_lines]. rewrite Hc, (IH Hl).
    destruct (Ascii.eqb c CR); [|reflexivity].
    destruct l as [|c' l']; cbn [append]; [reflexivity|].
    simpl in Hl. apply andb_prop in Hl as [Hc' _].
    apply negb_true_iff in Hc'. now rewrite Hc'.
Qed.

Lemma split_lines_no_LF_line (l : string) :
  no_LF l = true -> split_lines l = [l].
Proof.
  unfold no_LF. induction l as [|c l IH]; intros Hl; [reflexivity|].
  simpl in Hl. apply andb_prop in Hl as [Hc Hl].
  apply negb_true_iff in Hc.
  cbn [split_lines]. rewrite Hc, (IH Hl).
  destruct (Ascii.eqb c CR); [|reflexivity].
  destruct l as [|c' l']; [reflexivity|].
  simpl in Hl. apply andb_prop in Hl as [Hc' _].
  apply negb_true_iff in Hc'. now rewrite Hc'.
Qed.

(** Lines without LF, joined by CR LF, split into themselves. *)
Lemma split_lines_join (lines : list string) :
  lines <> [] -> Forall (fun l => no_LF l = true) lines ->
  split_lines (join CRLF lines) = lines.
Proof.
  unfold join. induction lines as [|l lines IH]; intros Hne Hall;
    [congruence|].
  inversion Hall as [|? ? Hl Hall']; subst.
  destruct lines as [|l' lines'].
  - now apply split_lines_no_LF_line.
  - change (String.concat CRLF (l :: l' :: lines'))
      with (l ++ CRLF ++ String.concat CRLF (l' :: lines')).
    rewrite (split_lines_no_LF_CRLF _ _ Hl). f_equal.
    apply IH; [discriminate | exact Hall'].
Qed.

Lemma filter_filter {A} (f : A -> bool) (l : list A) :
  filter f (filter f l) = filter f l.
Proof.
  apply filter_all. apply forallb_forall. intros x Hx.
  now apply filter_In in Hx.
Qed.

(** The constructor sees the raw text through the lines it keeps. *)
Lemma HL7Message_new_kept (r1 r2 : string) :
  kept_lines r1 = kept_lines r2 -> HL7Message_new r1 = HL7Message_new r2.
Proof. unfold kept_lines, HL7Message_new. now intros ->. Qed.

(** Serializing and splitting again gives the kept lines back. *)
Lemma kept_lines_join (rawHL7 : string) :
  kept_lines (join CRLF (kept_lines rawHL7)) = kept_lines rawHL7.
Proof.
  unfold kept_lines.
  destruct (filter not_blank (split_lines rawHL7)) as [|l ls] eqn:E.
  - reflexivity.
  - rewrite split_lines_join.
    + rewrite <- E. apply filter_filter.
    + discriminate.
    + rewrite <- E. apply Forall_forall. intros x Hx.
      apply filter_In in Hx as [Hx _].
      pose proof (@split_lines_no_LF _ rawHL7 (le_n _)) as H.
      rewrite Forall_forall in H. now apply H.
Qed.

Lemma built_toString (rawHL7 : string) (m : Message) :
  HL7Message_new rawHL7 = Built m ->
  map (Segment_toString (store m)) (segments m) = kept_lines rawHL7.
Proof.
  intros Hb. destruct (built_shape _ Hb) as (Hstore & Hsegs & _).
  rewrite Hstore, Hsegs. exact (toString_allocated _ []).
Qed.

(** X9.  Whenever the constructor returns a document, the document
    satisfies the data-model invariant, its segments serialize to the
    lines kept from the raw text (the pieces between LF or CR LF that are
    not blank), in order, and [toString] is those lines joined by
    CR LF. *)
Theorem constructor_keeps_lines (rawHL7 : string) (m : Message) :
  HL7Message_new rawHL7 = Built m ->
  document m /\
  map (Segment_toString (store m)) (getSegments m) = kept_lines rawHL7 /\
  toString m = join CRLF (kept_lines rawHL7).
Proof.
  intros Hb. split; [now apply (HL7Message_new_document rawHL7)|].
  pose proof (@built_toString _ _ Hb) as Hlines. split; [exact Hlines|].
  unfold toString. now rewrite Hlines.
Qed.

Lemma constructor_keeps_lines_witness :
  let raw := "PID|1" ++ String CR "" ++ "|x" ++ String LF "" ++ "  "
               ++ CRLF ++ "OBX|2" in
  HL7Message_new raw = Built (built raw) /\
  toString (built raw) = ("PID|1" ++ String CR "" ++ "|x") ++ CRLF ++ "OBX|2".
Proof.
  cbv zeta.
  assert (Hb : HL7Message_new ("PID|1" ++ String CR "" ++ "|x" ++ String LF ""
                                 ++ "  " ++ CRLF ++ "OBX|2")
               = Built (built ("PID|1" ++ String CR "" ++ "|x" ++ String LF ""
                                 ++ "  " ++ CRLF ++ "OBX|2")))
    by (vm_compute; reflexivity).
  split; [exact Hb|].
  rewrite (proj2 (proj2 (@constructor_keeps_lines _ _ Hb))).
  vm_compute. reflexivity.
Defined.

(** X10.  Re-parsing what a document serializes to gives the same
    document: for every raw text the constructor accepts,
    [new HL7Message(new HL7Message(raw).toString())] is the instance
    [new HL7Message(raw)] is, so [toString] after a second parse is
    unchanged. *)
Theorem reparse_is_identity (rawHL7 : string) (m : Message) :
  HL7Message_new rawHL7 = Built m ->
  HL7Message_new (toString m) = Built m.
Proof.
  intros Hb. rewrite <- Hb.
  unfold toString. rewrite (@built_toString _ _ Hb).
  apply HL7Message_new_kept. apply kept_lines_join.
Qed.

Lemma reparse_is_identity_witness :
  HL7Message_new sampleHL7 = Built (built sampleHL7) /\
  HL7Message_new (toString (built sampleHL7)) = Built (built sampleHL7).
Proof.
  assert (Hb : HL7Message_new sampleHL7 = Built (built sampleHL7))
    by (vm_compute; reflexivity).
  split; [exact Hb|]. exact (@reparse_is_identity _ _ Hb).
Defined.

(** *** When the constructor returns a document *)

Lemma allocated_names (P : string -> Prop) (lines : list string) :
  Forall (fun a =>
            P (Segment_getName
                 (map (fun line => OSegment (split "|" line)
                                            (hd "" (split "|" line))) lines) a))
         (seq 0 (List.length lines))
  <-> Forall (fun line => P (line_name line)) lines.
Proof.
  rewrite !Forall_forall. split.
  - intros H line Hin. apply In_nth_error in Hin as [a Ha].
    rewrite <- (getName_allocated _ _ Ha). apply H.
    apply in_seq. split; [lia|]. simpl.
    apply nth_error_Some. congruence.
  - intros H a Ha. apply in_seq in Ha as [_ Ha]. simpl in Ha.
    destruct (nth_error lines a) as [line|] eqn:E.
    + rewrite (getName_allocated _ _ E). apply H.
      eapply nth_error_In; eassumption.
    + apply nth_error_None in E. lia.
Qed.

Lemma built_members (rawHL7 : string) (m : Message) :
  HL7Message_new rawHL7 = Built m ->
  filter (fun k => mem k member_names) (map fst (parsedSegments m)) = [].
Proof.
  unfold HL7Message_new. rewrite mapM_Segment_new.
  destruct (parseSegmentsToObject _ _) as [parsed|e]; [|discriminate].
  destruct (filter _ (map fst parsed)) eqn:F; [|discriminate].
  now intros [= <-].
Qed.

(** X13.  The constructor returns a document exactly when no kept line
    is named like a property of [Object.prototype] or like a member of
    the instance, and it throws a TypeError exactly when some kept line
    is named like a property of [Object.prototype] (["toString|1"],
    ["constructor"], ...). *)
Theorem constructor_outcome (rawHL7 : string) :
  ((exists m, HL7Message_new rawHL7 = Built m) <->
   forallb (fun l => negb (prototype_named l) && negb (member_named l))
           (kept_lines rawHL7) = true) /\
  (HL7Message_new rawHL7 = Raised TypeError <->
   existsb prototype_named (kept_lines rawHL7) = true).
Proof.
  assert (Hbuilt : forall m, HL7Message_new rawHL7 = Built m ->
            Forall (fun l => prototype_named l = false /\ member_named l = false)
                   (kept_lines rawHL7)).
  { intros m Hb.
    destruct (built_shape _ Hb) as (Hstore & Hsegs & groups & G & Hparsed).
    pose proof (group_segments_names _ _ _ G) as Hnames.
    rewrite Hstore, Hsegs in Hnames.
    apply (allocated_names (fun k => mem k object_prototype_keys = false))
      in Hnames.
    pose proof (@built_members _ _ Hb) as Hmem.
    apply Forall_forall. intros l Hl. rewrite Forall_forall in Hnames.
    split; [now apply Hnames|].
    unfold member_named.
    destruct (mem (line_name l) member_names) eqn:E; [|reflexivity].
    exfalso.
    assert (Hkey : In (line_name l) (map fst (parsedSegments m))).
    { destruct (@built_index _ _ (line_name l) Hb) as [Hidx _].
      assert (Hnamed : named m (line_name l) <> []).
      { apply In_nth_error in Hl as [a Ha].
        assert (Hin : In a (named m (line_name l))).
        { unfold named. apply filter_In. split.
          - rewrite Hsegs. apply in_seq. split; [lia|]. simpl.
            apply nth_error_Some. fold (kept_lines rawHL7). congruence.
          - rewrite Hstore. fold (kept_lines rawHL7).
            rewrite (getName_allocated _ _ Ha). apply String.eqb_refl. }
        intros Hnil. now rewrite Hnil in Hin. }
      destruct (prop_get (parsedSegments m) (line_name l)) as [d|] eqn:Eg.
      - apply prop_get_In in Eg. apply in_map_iff. now exists (line_name l, d).
      - destruct (named m (line_name l)) as [|? [|? ?]]; congruence. }
    assert (Hf : In (line_name l)
                    (filter (fun k => mem k member_names)
                            (map fst (parsedSegments m))))
      by (apply filter_In; split; assumption).
    now rewrite Hmem in Hf. }
  assert (Hraised : HL7Message_new rawHL7 = Raised TypeError ->
                    existsb prototype_named (kept_lines rawHL7) = true).
  { intros Hr.
    destruct (existsb prototype_named (kept_lines rawHL7)) eqn:E;
      [reflexivity|]. exfalso.
    assert (Hall : Forall (fun line =>
                      mem (line_name line) object_prototype_keys = false)
                     (kept_lines rawHL7)).
    { apply Forall_forall. intros l Hl.
      destruct (mem (line_name l) object_prototype_keys) eqn:El;
        [|reflexivity].
      assert (existsb prototype_named (kept_lines rawHL7) = true)
        by (apply existsb_exists; exists l; split; assumption).
      congruence. }
    apply (allocated_names (fun k => mem k object_prototype_keys = false))
      in Hall.
    destruct (@group_segments_ok _ _ [] Hall) as [groups G].
    unfold HL7Message_new in Hr. rewrite mapM_Segment_new in Hr.
    cbn [app List.length] in Hr. fold (kept_lines rawHL7) in Hr.
    unfold parseSegmentsToObject in Hr. rewrite G in Hr.
    destruct (filter _ (map fst (unwrap_groups groups))); discriminate. }
  split; split.
  - intros [m Hb]. apply forallb_forall. intros l Hl.
    pose proof (Hbuilt m Hb) as H. rewrite Forall_forall in H.
    destruct (H _ Hl) as [-> ->]. reflexivity.
  - intros Hall.
    destruct (@HL7Message_new_lines rawHL7) as (m & Hm & _); [|eauto].
    apply Forall_forall. intros l Hl.
    rewrite forallb_forall in Hall. specialize (Hall _ Hl).
    apply andb_prop in Hall as [H1 H2].
    apply negb_true_iff in H1, H2. auto.
  - exact Hraised.
  - intros Hex. apply existsb_exists in Hex as (l & Hl & Hp).
    destruct (HL7Message_new rawHL7) as [m|[]|k] eqn:Hn; [|reflexivity|].
    + pose proof (Hbuilt m eq_refl) as H. rewrite Forall_forall in H.
      destruct (H _ Hl) as [Hq _]. congruence.
    + exfalso. unfold HL7Message_new in Hn. rewrite mapM_Segment_new in Hn.
      cbn [app List.length] in Hn. fold (kept_lines rawHL7) in Hn.
      unfold parseSegmentsToObject in Hn.
      destruct (group_segments _ _ []) as [groups|e] eqn:G; [|discriminate].
      pose proof (group_segments_names _ _ _ G) as Hnames.
      apply (allocated_names (fun k => mem k object_prototype_keys = false))
        in Hnames.
      rewrite Forall_forall in Hnames. specialize (Hnames _ Hl).
      unfold prototype_named in Hp. congruence.
Qed.

(** *** Blank input *)

Lemma trim_spaces (l : string) : all_chars is_space l -> trim l = "".
Proof.
  unfold all_chars, trim. intros H.
  assert (Hd : drop_spaces (list_ascii_of_string l) = []).
  { induction l as [|c l IH]; [reflexivity|]. simpl in *.
    destruct (is_space c); [|discriminate]. injection H as H. now apply IH. }
  now rewrite Hd.
Qed.

(** X11.  A raw text made of white space only (spaces, tabs, CR, LF and
    the like, or nothing at all) builds the empty document: no segment,
    an empty index, [toString()] is [''] and every [get] is ['']. *)
Theorem blank_input_builds_empty (rawHL7 : string) :
  all_chars is_space rawHL7 ->
  HL7Message_new rawHL7 = Built (mkMessage [] [] []) /\
  toString (mkMessage [] [] []) = "" /\
  forall path, get (mkMessage [] [] []) path = "".
Proof.
  intros Hall. conjuncts.
  - assert (Hkept : kept_lines rawHL7 = []).
    { unfold kept_lines. apply filter_none. intros l Hl.
      pose proof (@split_lines_pieces is_space _ rawHL7 (le_n _) Hall) as H.
      rewrite Forall_forall in H. unfold not_blank.
      now rewrite (trim_spaces (H _ Hl)). }
    rewrite (@HL7Message_new_kept rawHL7 "").
    + reflexivity.
    + now rewrite Hkept.
  - reflexivity.
  - intros path. unfold get. destruct (parsePath path); reflexivity.
Qed.

Lemma blank_input_builds_empty_witness :
  let raw := "   " ++ String LF "   " ++ CRLF ++ "   " in
  all_chars is_space raw /\
  HL7Message_new raw = Built (mkMessage [] [] []).
Proof.
  cbv zeta. split; [reflexivity|].
  exact (proj1 (@blank_input_builds_empty
                  ("   " ++ String LF "   " ++ CRLF ++ "   ") eq_refl)).
Defined.

(** *** Scripts of calls *)

(** X12.  The data-model invariant holds along every use of a document:
    after any script of [get], [set] and [toString] calls on a built
    document, also one that ends in an exception, the ordered list and
    the name index still hold Segments and every indexed segment is in the
    ordered list. *)
Theorem run_keeps_document (calls : list call) :
  forall m, document m -> document (snd (run calls m)).
Proof.
  induction calls as [|[path|path value|] calls IH]; intros m Hdoc;
    cbn [run].
  - exact Hdoc.
  - unfold bind. specialize (IH m Hdoc).
    destruct (run calls m) as [[out|e] m']; exact IH.
  - unfold bind. pose proof (set_document path value Hdoc) as Hset.
    destruct (set path value m) as [[u|e] m1]; cbn [snd] in Hset.
    + now apply IH.
    + exact Hset.
  - unfold bind. specialize (IH m Hdoc).
    destruct (run calls m) as [[out|e] m']; exact IH.
Qed.

Lemma run_keeps_document_witness :
  let m := built "PID|1" in
  document m /\
  document (snd (run [CallSet "NK1-2" "X"; CallSet "PID-5.1" "Y";
                      CallToString] m)).
Proof.
  cbv zeta.
  assert (Hdoc : document (built "PID|1"))
    by (apply (HL7Message_new_document "PID|1"); vm_compute; reflexivity).
  split; [exact Hdoc|]. exact (run_keeps_document _ Hdoc).
Defined.

End DocumentProperties.

(* ------------------------------------------------------------------ *)
(** ** What [set] does to a document *)

Module SetProperties.
Import JS Seg Msg Spec SegViews MsgAccess.
Import JSFacts SegFacts MsgFacts ViewProperties.





(** X14.  The current [set] creates a segment whose name is not in the
    index: the new segment is appended to the ordered list, entered in
    the index under its name, and the serialized text becomes the old
    text followed by the line of the new segment, whether the write that
    follows succeeds or throws. *)
Theorem set_appends_new_segment (m : Message) (path v : string)
  (p : PathParts) :
  document m ->
  parsePath path = Some p ->
  prop_get (parsedSegments m) (segmentName p) = None ->
  let m' := snd (set path v m) in
  exists a,
    getSegments m' = (getSegments m ++ [a])%list /\
    first_segment m' (segmentName p) = Some a /\
    Segment_getName (store m') a = segmentName p /\
    toString m' =
      match getSegments m with
      | [] => Segment_toString (store m') a
      | _ :: _ => toString m ++ CRLF ++ Segment_toString (store m') a
      end.
Proof. exact (@set_creates_segment m path v p). Qed.

Lemma set_appends_new_segment_witness :
  let m := built "PID|1" in
  document m /\
  parsePath "NK1-2" = Some (mkPath "NK1" 2 None None) /\
  prop_get (parsedSegments m) "NK1" = None /\
  exists a, getSegments (snd (set "NK1-2" "X" m)) = (getSegments m ++ [a])%list.
Proof.
  cbv zeta.
  assert (Hdoc : document (built "PID|1"))
    by (apply (HL7Message_new_document "PID|1"); vm_compute; reflexivity).
  assert (Hp : parsePath "NK1-2" = Some (mkPath "NK1" 2 None None))
    by (vm_compute; reflexivity).
  split; [exact Hdoc|]. split; [exact Hp|]. split; [reflexivity|].
  destruct (@set_appends_new_segment _ "NK1-2" "X" _ Hdoc Hp eq_refl)
    as (a & Ha & _).
  exists a. exact Ha.
Defined.

(** *** A whole field *)



(** *** A component or a subcomponent *)

















End SetProperties.

(* ------------------------------------------------------------------ *)
(** ** What [parsePath] reads from a path *)

Module PathProperties.
Import JS Regex Msg Spec PathText.
Import JSFacts RegexFacts PathFacts.

Lemma sem_digits (w : string) (g : captures) :
  sem digits w g -> g = [] /\ digit_string w.
Proof.
  unfold digits. intros H. invert_sem. split; [reflexivity|]. split.
  - match goal with
    | Hlen : 1 <= String.length ?w |- ?w <> "" =>
        destruct w; simpl in Hlen; [lia | discriminate]
    end.
  - assumption.
Qed.

Lemma sem_opt_dot_digits (t : string) (g : captures) :
  sem (Opt dot_digits) t g ->
  (t = "" /\ g = [None]) \/
  (exists c, t = "." ++ c /\ g = [Some c] /\ digit_string c).
Proof.
  intros H. inversion H as [ | | | ? ? ? Hd | | ]; subst; clear H.
  - right. unfold dot_digits in Hd.
    inversion Hd as [ | | ? ? w1 w2 g1 g2 Ha Hb | | | ]; subst; clear Hd.
    inversion Ha; subst; clear Ha.
    inversion Hb as [ | | | | | ? ? ? Hc ]; subst; clear Hb.
    apply sem_digits in Hc as [-> Hc]. eauto.
  - left. split; reflexivity.
Qed.

(** The text and the captures of a match of the path pattern. *)
Lemma pathRegex_text (s : string) (g : captures) :
  sem pathRegex s g ->
  exists n f t1 t2 g3 g4,
    s = n ++ "-" ++ f ++ t1 ++ t2 /\
    g = (Some n :: Some f :: g3 ++ g4)%list /\
    all_chars name_char n /\ digit_string f /\
    sem (Opt dot_digits) t1 g3 /\ sem (Opt dot_digits) t2 g4.
Proof.
  unfold pathRegex. intros H.
  inversion H as [ | | ? ? w1 w2 g1 g2 Ha Hb | | | ]; subst; clear H.
  inversion Ha as [ | | | | | ? ? g1' Hn ]; subst; clear Ha.
  inversion Hb as [ | | ? ? w3 w4 g3 g4 Hc Hd | | | ]; subst; clear Hb.
  inversion Hc; subst; clear Hc.
  inversion Hd as [ | | ? ? w5 w6 g5 g6 He Hf | | | ]; subst; clear Hd.
  inversion He as [ | | | | | ? ? g5' Hg ]; subst; clear He.
  inversion Hf as [ | | ? ? w7 w8 g7 g8 Hh Hi | | | ]; subst; clear Hf.
  pose proof (sem_name_re Hn) as Hname.
  pose proof (sem_ngroups Hn) as Hlen. cbn in Hlen.
  destruct g1'; [|discriminate].
  apply sem_digits in Hg as [-> Hg].
  exists w1, w5, w7, w8, g7, g8. conjuncts; auto.
Qed.

(** The text of an accepted path, recovered from the match. *)
Lemma parsePath_decode (path : string) (p : PathParts) :
  parsePath path = Some p ->
  exists field component subcomponent,
    path = path_text (segmentName p) field component subcomponent /\
    p = parts_of (segmentName p) field component subcomponent /\
    all_chars name_char (segmentName p) /\
    digit_string field /\
    optional_digits component /\ optional_digits subcomponent /\
    (component = None -> subcomponent = None).
Proof.
  intros Hp. pose proof (parsePath_component_first _ Hp) as Hfirst.
  unfold parsePath in Hp.
  destruct (exec pathRegex path) as [g|] eqn:E; [|discriminate].
  destruct (pathRegex_text (exec_sound _ _ E))
    as (n & f & t1 & t2 & g3 & g4 & -> & -> & Hn & Hf & H1 & H2).
  assert (Hne : forall w, digit_string w -> truthy (Some w) = true).
  { intros w [Hw _]. unfold truthy. apply String.eqb_neq in Hw.
    now rewrite Hw. }
  assert (Hnn : truthy (Some n) = true).
  { unfold truthy. destruct n; [|reflexivity].
    apply exec_sound in E. apply pathRegex_groups in E
      as (n' & f' & m3 & m4 & Hg & Hn' & _).
    injection Hg as <- _. congruence. }
  apply sem_opt_dot_digits in H1 as [[-> ->]|(c & -> & -> & Hc)];
    apply sem_opt_dot_digits in H2 as [[-> ->]|(c' & -> & -> & Hc')];
    cbn [app] in Hp; rewrite Hnn, (Hne _ Hf) in Hp; cbn [negb orb] in Hp;
    try rewrite (Hne _ Hc) in Hp; try rewrite (Hne _ Hc') in Hp;
    cbn [truthy or_empty] in Hp; injection Hp as <-;
    cbn [segmentName componentIndex subcomponentIndex] in *.
  - exists f, None, None. conjuncts; try reflexivity; auto.
  - specialize (Hfirst eq_refl). discriminate.
  - exists f, (Some c), None. conjuncts; try reflexivity; auto.
  - exists f, (Some c), (Some c'). conjuncts; try reflexivity; auto;
      try discriminate.
    unfold path_text, dotted. cbn [append]. now rewrite !append_nil_r.
Qed.

(** X19.  A path [parsePath] accepts is the text of the parts it
    returns: the name, a dash, the digits of the field index, then the
    digits of the component index and of the subcomponent index, each
    after a dot, when the part is returned.  Every index is [parseInt]
    of its digits, a missing part is [undefined], and there is no
    subcomponent index without a component index. *)
Theorem parsePath_reads_text (path : string) (p : PathParts) :
  parsePath path = Some p ->
  exists field component subcomponent,
    path = path_text (segmentName p) field component subcomponent /\
    p = parts_of (segmentName p) field component subcomponent /\
    all_chars name_char (segmentName p) /\
    digit_string field /\
    optional_digits component /\ optional_digits subcomponent /\
    (component = None -> subcomponent = None).
Proof. exact (@parsePath_decode path p). Qed.

Lemma parsePath_reads_text_witness :
  parsePath "PID-5.2" = Some (mkPath "PID" 5 (Some 2) None) /\
  exists field component subcomponent,
    "PID-5.2" = path_text "PID" field component subcomponent /\
    optional_digits component.
Proof.
  assert (Hp : parsePath "PID-5.2" = Some (mkPath "PID" 5 (Some 2) None))
    by (vm_compute; reflexivity).
  split; [exact Hp|].
  destruct (parsePath_reads_text _ Hp)
    as (f & c & s & Htext & _ & _ & _ & Hc & _).
  exists f, c, s. split; [exact Htext | exact Hc].
Defined.

(** *** From the text to the parts *)

Lemma all_chars_cons (P : ascii -> bool) (a : ascii) (w : string) :
  all_chars P (String a w) -> P a = true /\ all_chars P w.
Proof.
  unfold all_chars. simpl. destruct (P a); [|discriminate].
  intros [= H]. now split.
Qed.

(** A run of characters of a class that ends where the class ends is
    determined by the text. *)
Lemma prefix_unique (P : ascii -> bool) (w w' t t' : string) :
  all_chars P w -> all_chars P w' ->
  (forall a r, t = String a r -> P a = false) ->
  (forall a r, t' = String a r -> P a = false) ->
  w ++ t = w' ++ t' -> w = w' /\ t = t'.
Proof.
  revert w'; induction w as [|a w IH]; intros [|a' w'] Hw Hw' Ht Ht' E;
    simpl in E.
  - now split.
  - apply all_chars_cons in Hw' as [Ha _].
    rewrite (Ht _ _ E) in Ha. discriminate.
  - apply all_chars_cons in Hw as [Ha _].
    rewrite (Ht' _ _ (eq_sym E)) in Ha. discriminate.
  - injection E as <- E.
    apply all_chars_cons in Hw as [_ Hw].
    apply all_chars_cons in Hw' as [_ Hw'].
    destruct (IH _ Hw Hw' Ht Ht' E) as [-> ->]. now split.
Qed.

Lemma dotted_stops (x : option string) (more : string) (a : ascii) (r : string) :
  dotted x more = String a r -> is_digit a = false.
Proof. destruct x; simpl; [|discriminate]. now intros [= <- _]. Qed.

Lemma path_text_unique (n f n' f' : string) (c s c' s' : option string) :
  all_chars name_char n -> all_chars name_char n' ->
  digit_string f -> digit_string f' ->
  optional_digits c -> optional_digits c' ->
  optional_digits s -> optional_digits s' ->
  (c = None -> s = None) -> (c' = None -> s' = None) ->
  path_text n f c s = path_text n' f' c' s' ->
  n = n' /\ f = f' /\ c = c' /\ s = s'.
Proof.
  intros Hn Hn' [_ Hf] [_ Hf'] Hc Hc' Hs Hs' Hcs Hcs' E.
  unfold path_text in E.
  apply (@prefix_unique name_char) in E as [-> E]; try assumption;
    try (now intros a r [= <- _]).
  injection E as E.
  apply (@prefix_unique is_digit) in E as [-> E]; try assumption;
    try apply dotted_stops.
  split; [reflexivity|]. split; [reflexivity|].
  destruct c as [x|], c' as [x'|]; try discriminate.
  - injection E as E. destruct Hc as [_ Hx], Hc' as [_ Hx'].
    apply (@prefix_unique is_digit) in E as [-> E]; try assumption;
      try apply dotted_stops.
    split; [reflexivity|].
    destruct s as [y|], s' as [y'|]; try discriminate; [|reflexivity].
    injection E as E. rewrite !append_nil_r in E. now subst.
  - now rewrite Hcs, Hcs'.
Qed.

Lemma sem_digits_intro (w : string) : digit_string w -> sem digits w [].
Proof.
  intros [Hne Hd]. unfold digits. apply sem_Cls.
  - exact Hd.
  - destruct w; [congruence | simpl; lia].
  - discriminate.
Qed.

Lemma sem_dotted (x : option string) :
  optional_digits x -> exists g, sem (Opt dot_digits) (dotted x "") g.
Proof.
  destruct x as [w|]; intros H.
  - unfold dotted. rewrite append_nil_r. eexists. apply sem_Opt_some.
    unfold dot_digits. apply sem_Cat; [apply sem_Chr|].
    apply sem_Grp. now apply sem_digits_intro.
  - eexists. apply sem_Opt_none.
Qed.

Lemma lang_path_text (n f : string) (c s : option string) :
  lang name_re n -> digit_string f ->
  optional_digits c -> optional_digits s ->
  (c = None -> s = None) ->
  lang pathRegex (path_text n f c s).
Proof.
  intros [gn Hn] Hf Hc Hs Hcs.
  destruct (@sem_dotted c Hc) as [gc Sc]. destruct (@sem_dotted s Hs) as [gs Ss].
  assert (E : path_text n f c s
              = n ++ (String "-" "" ++ (f ++ (dotted c "" ++ dotted s "")))).
  { unfold path_text. do 2 f_equal.
    destruct c as [x|]; [|now rewrite (Hcs eq_refl)].
    unfold dotted at 1 3. now rewrite append_nil_r. }
  rewrite E. eexists. unfold pathRegex.
  apply sem_Cat; [apply sem_Grp; exact Hn|].
  apply sem_Cat; [apply sem_Chr|].
  apply sem_Cat; [apply sem_Grp; now apply sem_digits_intro|].
  apply sem_Cat; eassumption.
Qed.

(** The parts of a path text. *)
Lemma parsePath_encode (n f : string) (c s : option string) :
  lang name_re n -> digit_string f ->
  optional_digits c -> optional_digits s ->
  (c = None -> s = None) ->
  parsePath (path_text n f c s) = Some (parts_of n f c s).
Proof.
  intros Hn Hf Hc Hs Hcs.
  pose proof (@lang_path_text n f c s Hn Hf Hc Hs Hcs) as Hl.
  apply pathRegex_lang, parsePath_accepts in Hl as [p Hp].
  rewrite Hp. f_equal.
  destruct (parsePath_decode _ Hp)
    as (f' & c' & s' & Htext & Hparts & Hn' & Hf' & Hc' & Hs' & Hcs').
  destruct Hn as [gn Hn]. apply sem_name_re in Hn.
  destruct (@path_text_unique _ _ _ _ _ _ _ _
              Hn Hn' Hf Hf' Hc Hc' Hs Hs' Hcs Hcs' Htext)
    as (-> & -> & -> & ->).
  exact Hparts.
Qed.

(** X20.  [parsePath] returns the parts that were written: for a name
    of the shape [[A-Z]{2,3}[0-9]?] and indices written in decimal
    digits, the text of the path parses to that name, the field index
    and the component and subcomponent indices that are present. *)
Theorem parsePath_of_text (n f : string) (c s : option string) :
  lang name_re n -> digit_string f ->
  optional_digits c -> optional_digits s ->
  (c = None -> s = None) ->
  parsePath (path_text n f c s) = Some (parts_of n f c s).
Proof. exact (@parsePath_encode n f c s). Qed.

Lemma parsePath_of_text_witness :
  lang name_re "OBX" /\ digit_string "12" /\
  optional_digits (Some "3") /\ optional_digits (Some "04") /\
  parsePath "OBX-12.3.04" = Some (mkPath "OBX" 12 (Some 3) (Some 4)).
Proof.
  assert (Hn : lang name_re "OBX")
    by (apply exec_lang; vm_compute; discriminate).
  assert (Hd : forall w, w <> "" -> run_length is_digit w = String.length w ->
                         digit_string w) by (intros w H1 H2; now split).
  assert (Hf : digit_string "12") by (apply Hd; [discriminate | reflexivity]).
  assert (Hc : optional_digits (Some "3"))
    by (apply Hd; [discriminate | reflexivity]).
  assert (Hs : optional_digits (Some "04"))
    by (apply Hd; [discriminate | reflexivity]).
  conjuncts; try assumption.
  apply (@parsePath_of_text "OBX" "12" (Some "3") (Some "04") Hn Hf Hc Hs).
  discriminate.
Defined.

(** *** Reading a part of what was read *)

Lemma getComponent_of_field (h : Seg.heap) (a : Seg.addr) (f c : nat) :
  Seg.Segment_getComponent h a f c
  = or_empty (at1 (split "^" (Seg.Segment_getField h a f)) c).
Proof.
  unfold Seg.Segment_getComponent. cbv zeta.
  destruct (String.eqb_spec (Seg.Segment_getField h a f) "") as [->|_];
    [|reflexivity].
  destruct c as [|[|[|c]]]; reflexivity.
Qed.

Lemma getSubcomponent_of_component (h : Seg.heap) (a : Seg.addr) (f c s : nat) :
  Seg.Segment_getSubcomponent h a f c s
  = or_empty (at1 (split "&" (Seg.Segment_getComponent h a f c)) s).
Proof.
  unfold Seg.Segment_getSubcomponent. cbv zeta.
  destruct (String.eqb_spec (Seg.Segment_getComponent h a f c) "") as [->|_];
    [|reflexivity].
  destruct s as [|[|[|s]]]; reflexivity.
Qed.

(** X27.  Reading a component is reading the field and taking a piece
    of it: on every message, [get] at [name-f.c] is piece [c] (from 1)
    of the text [get] returns at [name-f], split at [^], and [get] at
    [name-f.c.s] is piece [s] of the text at [name-f.c], split at [&];
    a piece that is not there reads ['']. *)
Theorem get_refines (m : Message) (n f c s : string) :
  lang name_re n -> digit_string f -> digit_string c -> digit_string s ->
  get m (path_text n f (Some c) None) =
    or_empty (at1 (split "^" (get m (path_text n f None None))) (parseInt c)) /\
  get m (path_text n f (Some c) (Some s)) =
    or_empty (at1 (split "&" (get m (path_text n f (Some c) None)))
                  (parseInt s)).
Proof.
  intros Hn Hf Hc Hs. unfold get.
  rewrite (@parsePath_encode n f None None Hn Hf I I (fun _ => eq_refl)).
  rewrite (@parsePath_encode n f (Some c) None Hn Hf Hc I
             ltac:(discriminate)).
  rewrite (@parsePath_encode n f (Some c) (Some s) Hn Hf Hc Hs
             ltac:(discriminate)).
  cbn [parts_of segmentName fieldIndex componentIndex subcomponentIndex
       option_map].
  destruct (first_segment m n) as [a|].
  - split; [apply getComponent_of_field | apply getSubcomponent_of_component].
  - split; [destruct (parseInt c) as [|[|[|k]]] | destruct (parseInt s) as [|[|[|k]]]];
      reflexivity.
Qed.

Lemma get_refines_witness :
  let m := built sampleHL7 in
  lang name_re "PID" /\ digit_string "5" /\ digit_string "2" /\
  get m "PID-5.2" = or_empty (at1 (split "^" (get m "PID-5")) 2).
Proof.
  cbv zeta.
  assert (Hn : lang name_re "PID")
    by (apply exec_lang; vm_compute; discriminate).
  assert (Hd : forall w, w <> "" -> run_length is_digit w = String.length w ->
                         digit_string w) by (intros w H1 H2; now split).
  assert (H5 : digit_string "5") by (apply Hd; [discriminate | reflexivity]).
  assert (H2 : digit_string "2") by (apply Hd; [discriminate | reflexivity]).
  conjuncts; try assumption.
  exact (proj1 (@get_refines (built sampleHL7) "PID" "5" "2" "2" Hn H5 H2 H2)).
Defined.

End PathProperties.

(* ------------------------------------------------------------------ *)
(** ** The builder *)

Module BuilderProperties.
Import JS Seg Msg Spec SegViews MsgAccess Builder.
Import JSFacts SegFacts MsgFacts ViewProperties DocumentProperties.

(** *** The field array *)












(** *** Joining and splitting *)








(** *** build *)

Lemma getFields_allocated (lines : list string) :
  forall h0 : heap,
    map (Segment_getFields
           (h0 ++ map (fun line => OSegment (split "|" line)
                                            (hd "" (split "|" line))) lines)%list)
        (seq (List.length h0) (List.length lines)) = map (split "|") lines.
Proof.
  induction lines as [|line lines IH]; intros h0; [reflexivity|].
  cbn [map List.length seq]. f_equal.
  - unfold Segment_getFields, deref.
    rewrite nth_error_app2 by lia. rewrite Nat.sub_diag. reflexivity.
  - specialize (IH (h0 ++ [OSegment (split "|" line) (hd "" (split "|" line))])%list).
    rewrite length_app, Nat.add_1_r, <- app_assoc in IH. exact IH.
Qed.

Lemma kept_lines_segments (segments : list string) :
  Forall (fun l => no_LF l && not_blank l = true) segments ->
  kept_lines (join CRLF segments) = segments.
Proof.
  intros Hall. unfold kept_lines.
  destruct segments as [|l ls]; [reflexivity|].
  rewrite split_lines_join.
  - apply filter_all. apply forallb_forall. rewrite Forall_forall in Hall.
    intros x Hx. specialize (Hall _ Hx). now apply andb_prop in Hall.
  - discriminate.
  - eapply Forall_impl; [|exact Hall]. intros x Hx.
    now apply andb_prop in Hx.
Qed.

(** The document [build] returns for lines the constructor accepts. *)
Lemma build_lines (lines : list string) :
  Forall (fun l => no_LF l && not_blank l = true) lines ->
  Forall (fun l => prototype_named l = false /\ member_named l = false)
         lines ->
  exists m,
    build lines = Built m /\
    toString m = join CRLF lines /\
    store m = map (fun line => OSegment (split "|" line) (hd "" (split "|" line)))
                  lines /\
    segments m = seq 0 (List.length lines).
Proof.
  intros Hlines Hnames. pose proof (@kept_lines_segments _ Hlines) as Hkept.
  unfold kept_lines in Hkept. unfold build.
  pose proof (HL7Message_new_lines (join CRLF lines)) as Hnew.
  cbv zeta in Hnew. rewrite Hkept in Hnew.
  destruct (Hnew Hnames) as (m & Hb & Hstr).
  exists m. split; [exact Hb|]. split; [exact Hstr|].
  destruct (built_shape _ Hb) as (Hstore & Hsegs & _).
  cbv zeta in Hstore, Hsegs. rewrite Hkept in Hstore, Hsegs. now split.
Qed.

(** X22.  [build] on lines that hold no LF, are not blank and bear no
    reserved name returns a document with one segment per line, in the
    order the lines were added: the fields of each segment are the pieces
    of its line between the [|], and [toString] is the lines joined by
    CR LF. *)
Theorem build_keeps_segments (lines : list string) :
  Forall (fun l => no_LF l && not_blank l = true) lines ->
  Forall (fun l => prototype_named l = false /\ member_named l = false)
         lines ->
  exists m,
    build lines = Built m /\
    document m /\
    toString m = join CRLF lines /\
    map (Segment_getFields (store m)) (getSegments m) = map (split "|") lines /\
    map (Segment_toString (store m)) (getSegments m) = lines.
Proof.
  intros Hlines Hnames.
  destruct (@build_lines _ Hlines Hnames) as (m & Hb & Hstr & Hstore & Hsegs).
  exists m. split; [exact Hb|].
  split; [exact (HL7Message_new_document _ Hb)|].
  split; [exact Hstr|].
  unfold getSegments. rewrite Hstore, Hsegs. split.
  - exact (getFields_allocated _ []).
  - exact (toString_allocated _ []).
Qed.

Lemma build_keeps_segments_witness :
  exists m,
    build ["MSH|^~\&|A"; "PID|1||DOE"] = Built m /\
    toString m = "MSH|^~\&|A" ++ CRLF ++ "PID|1||DOE".
Proof.
  assert (H1 : Forall (fun l => no_LF l && not_blank l = true)
                      ["MSH|^~\&|A"; "PID|1||DOE"])
    by (repeat constructor).
  assert (H2 : Forall (fun l => prototype_named l = false /\
                                member_named l = false)
                      ["MSH|^~\&|A"; "PID|1||DOE"])
    by (repeat constructor).
  destruct (@build_keeps_segments _ H1 H2) as (m & Hb & _ & Hstr & _).
  exists m. split; [exact Hb | exact Hstr].
Defined.

(** *** From the builder to the path API *)





End BuilderProperties.

(* ------------------------------------------------------------------ *)
(** ** The validator, rule by rule *)

Module ValidatorComposition.
Import JS Regex Msg Spec Validator RuleParts.
Import PathFacts ValidatorFacts.

Lemma flat_map_nil {A B} (f : A -> list B) (l : list A) :
  flat_map f l = [] <-> forall x, In x l -> f x = [].
Proof.
  induction l as [|x l IH]; simpl.
  - split; [intros _ y [] | reflexivity].
  - split.
    + intros H. apply app_eq_nil in H as [Hx Hl].
      intros y [<-|Hin]; [exact Hx | now apply IH].
    + intros H. rewrite (H x (or_introl eq_refl)). simpl.
      apply IH. intros y Hin. apply H. now right.
Qed.

Lemma flat_map_length_le {A B} (f : A -> list B) (n : nat) (l : list A) :
  (forall x, List.length (f x) <= n) ->
  List.length (flat_map f l) <= n * List.length l.
Proof.
  intros Hf. induction l as [|x l IH]; simpl; [lia|].
  rewrite length_app. specialize (Hf x). lia.
Qed.

Section Rules.

Variable Date_parse_isNaN : string -> bool.
Variable Number_isNaN : string -> bool.

Lemma isValid_errors (rules : list ValidationRule) (msg : Message) :
  isValid (validate Date_parse_isNaN Number_isNaN rules msg) = true <->
  errors (validate Date_parse_isNaN Number_isNaN rules msg) = [].
Proof.
  unfold validate. cbn [isValid errors].
  destruct (fold_left _ rules []); simpl; split; congruence.
Qed.

Lemma check_rule_bound (msg : Message) (rule : ValidationRule) :
  List.length (check_rule Date_parse_isNaN Number_isNaN msg rule) <= 4 /\
  Forall (fun e => epath e = path rule)
         (check_rule Date_parse_isNaN Number_isNaN msg rule).
Proof.
  unfold check_rule. cbv zeta.
  destruct (required_missing rule _); [split; [simpl; lia | repeat constructor]|].
  destruct (_ =? ""); [split; [simpl; lia | constructor]|].
  destruct (maxLength rule) as [[|n]|]; try destruct (Nat.ltb _ _);
    destruct (allowedValues rule) as [allowed|]; try destruct (mem _ allowed);
    destruct (is_dataType DT _ && _); destruct (is_dataType NM _ && _);
    (split; [simpl; lia | repeat constructor]).
Qed.

(** X24.  The rules are checked one by one and independently: the
    errors of a rule list are the errors of its rules in the order of
    the rules, so validating two lists one after the other gives the
    errors of the first followed by those of the second, and the result
    is valid exactly when both are.  A list is valid exactly when each
    of its rules reports nothing; a rule reports at most four errors,
    each under the path of that rule. *)
Theorem validate_rule_by_rule (msg : Message) (rules1 rules2 : list ValidationRule) :
  let validate := validate Date_parse_isNaN Number_isNaN in
  let check_rule := check_rule Date_parse_isNaN Number_isNaN in
  errors (validate (rules1 ++ rules2)%list msg) =
    (errors (validate rules1 msg) ++ errors (validate rules2 msg))%list /\
  isValid (validate (rules1 ++ rules2)%list msg) =
    isValid (validate rules1 msg) && isValid (validate rules2 msg) /\
  (isValid (validate rules1 msg) = true <->
     forall rule, In rule rules1 -> check_rule msg rule = []) /\
  List.length (errors (validate rules1 msg)) <= 4 * List.length rules1 /\
  (forall e, In e (errors (validate rules1 msg)) ->
     exists rule, In rule rules1 /\ epath e = path rule).
Proof.
  cbv zeta.
  assert (Happ :
    errors (validate Date_parse_isNaN Number_isNaN (rules1 ++ rules2)%list msg) =
    (errors (validate Date_parse_isNaN Number_isNaN rules1 msg)
       ++ errors (validate Date_parse_isNaN Number_isNaN rules2 msg))%list).
  { rewrite !validate_errors. apply flat_map_app. }
  split; [exact Happ|]. split; [|split; [|split]].
  - unfold validate in *. cbn [isValid errors] in *.
    rewrite Happ, length_app.
    destruct (fold_left _ rules1 []); reflexivity.
  - rewrite isValid_errors, validate_errors. apply flat_map_nil.
  - rewrite validate_errors. apply flat_map_length_le.
    intros rule. apply check_rule_bound.
  - intros e. rewrite validate_errors.
    intros Hin. apply in_flat_map in Hin as (rule & Hrule & He).
    exists rule. split; [exact Hrule|].
    pose proof (proj2 (check_rule_bound msg rule)) as Hall.
    rewrite Forall_forall in Hall. now apply Hall.
Qed.

(** X25.  A rule whose path is malformed, or names a segment the
    message does not have, reads an empty value: it reports "The
    required field is missing." when it is required, and nothing at all
    otherwise, whatever length, allowed values or data type it sets. *)
Theorem rule_on_unresolved_path (msg : Message) (rule : ValidationRule) :
  ~ well_formed_path (path rule) \/
  (exists p, parsePath (path rule) = Some p /\
             first_segment msg (segmentName p) = None) ->
  get msg (path rule) = "" /\
  check_rule Date_parse_isNaN Number_isNaN msg rule =
    match required rule with
    | Some true => [missing_error rule]
    | _ => []
    end.
Proof.
  intros H.
  assert (Hget : get msg (path rule) = "").
  { unfold get. destruct H as [Hbad|(p & Hp & Hnone)].
    - apply parsePath_rejects in Hbad. now rewrite Hbad.
    - now rewrite Hp, Hnone. }
  split; [exact Hget|].
  unfold check_rule, required_missing. cbv zeta. rewrite Hget.
  destruct (required rule) as [[|]|]; reflexivity.
Qed.

(** X26.  [validate] never tests the [regex] of a rule, a [dataType] of
    ['ST'] or ['TS'], or a [maxLength] of 0: taking them away from every
    rule changes neither the errors nor [isValid]. *)
Theorem validate_unchecked_parts (msg : Message) (rules : list ValidationRule) :
  validate Date_parse_isNaN Number_isNaN (map checked_part rules) msg
  = validate Date_parse_isNaN Number_isNaN rules msg.
Proof.
  assert (Hrule : forall rule,
            check_rule Date_parse_isNaN Number_isNaN msg (checked_part rule)
            = check_rule Date_parse_isNaN Number_isNaN msg rule).
  { intros rule. unfold check_rule, required_missing, checked_part.
    cbn [path required dataType maxLength allowedValues].
    destruct (dataType rule) as [[| | |]|], (maxLength rule) as [[|n]|];
      reflexivity. }
  assert (Herr :
    errors (validate Date_parse_isNaN Number_isNaN (map checked_part rules) msg)
    = errors (validate Date_parse_isNaN Number_isNaN rules msg)).
  { rewrite !validate_errors.
    induction rules as [|r rs IH]; [reflexivity|].
    cbn [map flat_map]. now rewrite Hrule, IH. }
  unfold validate in *. cbn [errors] in Herr. now rewrite Herr.
Qed.

End Rules.

Lemma rule_on_unresolved_path_witness :
  let rule := mkRule "pid-5" None (Some NM) (Some 3) (Some ["A"]) None in
  let msg := built sampleHL7 in
  ~ well_formed_path (path rule) /\
  check_rule (fun _ => true) (fun _ => true) msg rule = [].
Proof.
  cbv zeta.
  assert (Hbad : ~ well_formed_path "pid-5")
    by (apply parsePath_rejects; vm_compute; reflexivity).
  split; [exact Hbad|].
  exact (proj2 (@rule_on_unresolved_path (fun _ => true) (fun _ => true)
                  (built sampleHL7)
                  (mkRule "pid-5" None (Some NM) (Some 3) (Some ["A"]) None)
                  (or_introl Hbad))).
Defined.

End ValidatorComposition.

(* ------------------------------------------------------------------ *)
(** ** The field object of a segment *)

Module AccessorProperties.
Import JS Seg Msg Spec SegViews.
Import JSFacts SegFacts ViewProperties PathProperties.

(** X28.  [getFieldObject(f)] always returns a fresh field view, also
    for a field that is empty or missing (where [segment[f]] is
    [null]): its text is [getField(f)], its [getComponent(c)] is the
    segment's [getComponent(f, c)], the text is the components joined,
    and no object that existed before changes. *)
Theorem getFieldObject_view (h : heap) (a : addr) (f c : nat) :
  let view := List.length h in
  let h' := snd (Segment_getFieldObject a f h) in
  fst (Segment_getFieldObject a f h) = Ok view /\
  HL7Field_toString h' view = Segment_getField h a f /\
  HL7Field_getComponent h' view c = Segment_getComponent h a f c /\
  field_consistent h' view /\
  (forall b, b < List.length h -> deref h' b = deref h b) /\
  (Segment_getField h a f = "" -> fst (Segment_proxy_get a f h) = Ok None).
Proof.
  cbv zeta. unfold Segment_getFieldObject, HL7Field_new, alloc.
  cbn [fst snd].
  unfold HL7Field_toString, HL7Field_getComponent, HL7Field_getComponents,
    field_consistent.
  rewrite deref_alloc_new. conjuncts; try reflexivity.
  - symmetry. apply getComponent_of_field.
  - do 2 eexists. split; [reflexivity|]. symmetry. apply join_split.
  - intros b Hb. unfold deref. now apply nth_error_app1.
  - intros He. now rewrite Segment_proxy_get_null.
Qed.

End AccessorProperties.

(* ------------------------------------------------------------------ *)
(** ** Whole-field writes, one after the other *)

Module SetComposition.
Import JS Seg Msg Spec.
Import JSFacts SegFacts MsgFacts ViewProperties.









End SetComposition.

(* ------------------------------------------------------------------ *)
(** ** From the raw text to [get] *)

Module ReadProperties.
Import JS Seg Msg Spec MsgAccess.
Import JSFacts SegFacts MsgFacts DocumentProperties.

(** The first allocated segment with a given name, and the first line
    with that name. *)
Lemma first_named_line (name : string) (f : nat) (lines : list string) :
  forall h0 : heap,
    let h := (h0 ++ map (fun line => OSegment (split "|" line)
                                              (hd "" (split "|" line))) lines)%list in
    match hd_error (filter (fun a => Segment_getName h a =? name)
                           (seq (List.length h0) (List.length lines))) with
    | Some a => Segment_getField h a f
    | None => ""
    end =
    match find (fun line => line_name line =? name) lines with
    | Some line => or_empty (nth_error (split "|" line) f)
    | None => ""
    end.
Proof.
  induction lines as [|l ls IH]; intros h0; cbv zeta; [reflexivity|].
  cbn [map List.length seq filter find].
  assert (Hd : deref (h0 ++ OSegment (split "|" l) (hd "" (split "|" l))
                         :: map (fun line => OSegment (split "|" line)
                                               (hd "" (split "|" line))) ls)%list
                     (List.length h0)
               = Some (OSegment (split "|" l) (hd "" (split "|" l)))).
  { unfold deref. rewrite nth_error_app2 by lia. now rewrite Nat.sub_diag. }
  unfold line_name in *. unfold Segment_getName at 1. rewrite Hd.
  destruct (hd "" (split "|" l) =? name).
  - cbn [hd_error]. unfold Segment_getField, Segment_getFields. now rewrite Hd.
  - specialize (IH (h0 ++ [OSegment (split "|" l) (hd "" (split "|" l))])%list).
    cbv zeta in IH. rewrite length_app, Nat.add_1_r, <- app_assoc in IH.
    exact IH.
Qed.

(** X30.  What [get] reads from the raw text: in a message the
    constructor returns, [get] with a field path returns piece [f]
    (counted from 0 at the name) of the first non-blank line whose name
    is the segment name of the path, split at [|]; it returns [''] when
    no line has that name or the line has no such piece. *)
Theorem get_reads_raw_text (rawHL7 : string) (m : Message) (path : string)
  (p : PathParts) :
  HL7Message_new rawHL7 = Built m ->
  parsePath path = Some p ->
  componentIndex p = None ->
  get m path =
  match find (fun line => line_name line =? segmentName p)
             (kept_lines rawHL7) with
  | Some line => or_empty (nth_error (split "|" line) (fieldIndex p))
  | None => ""
  end.
Proof.
  intros Hb Hp Hc. unfold get. rewrite Hp, Hc.
  destruct (@built_index _ _ (segmentName p) Hb) as [Hidx _].
  assert (Hfirst : first_segment m (segmentName p)
                   = hd_error (named m (segmentName p))).
  { unfold first_segment. rewrite Hidx.
    now destruct (named m (segmentName p)) as [|a [|b l]]. }
  rewrite Hfirst. unfold named.
  destruct (built_shape _ Hb) as (Hstore & Hsegs & _). cbv zeta in Hstore, Hsegs.
  rewrite Hstore, Hsegs.
  exact (first_named_line (segmentName p) (fieldIndex p) _ []).
Qed.

Lemma get_reads_raw_text_witness :
  HL7Message_new sampleHL7 = Built (built sampleHL7) /\
  parsePath "PID-4" = Some (mkPath "PID" 4 None None) /\
  get (built sampleHL7) "PID-4" =
  match find (fun line => line_name line =? "PID") (kept_lines sampleHL7) with
  | Some line => or_empty (nth_error (split "|" line) 4)
  | None => ""
  end.
Proof.
  assert (Hb : HL7Message_new sampleHL7 = Built (built sampleHL7))
    by (vm_compute; reflexivity).
  assert (Hp : parsePath "PID-4" = Some (mkPath "PID" 4 None None))
    by (vm_compute; reflexivity).
  split; [exact Hb|]. split; [exact Hp|].
  exact (@get_reads_raw_text sampleHL7 _ "PID-4" _ Hb Hp eq_refl).
Defined.

End ReadProperties.
